(** * The value model of the ledger: postings, transactions, reversal, hash

    A shallow embedding of package [core]: [Posting], [Postings] and
    [Postings.Reverse]; [Transaction], [Transaction.Reverse] and [Hash].

    Go slices are headers (pointer, length, capacity) over a backing array
    that several headers may share.  [Postings.Reverse] writes through the
    header it receives, so the embedding keeps the backing cells in an
    explicit memory and threads it through every operation; an index
    expression outside the slice bounds panics, which is the [None] of the
    monad below. *)

From Stdlib Require Import ZArith String Ascii Lia Bool DecimalString.
From Stdlib Require Import DecimalZ DecimalPos.
From Stdlib Require Import Strings.Byte.
From stdpp Require Import base list.

Local Open Scope Z_scope.

(** ** Data *)

(** [type Posting struct]: two account addresses, an int64 amount, an asset. *)
Record Posting := mkPosting {
  Source : string;
  Destination : string;
  Amount : Z;
  Asset : string
}.

(** The memory holds the cells of every backing array of postings. *)
Abbreviation memory := (list Posting).

(** [type Postings []Posting]: a slice header.  [data = None] is the nil
    slice. *)
Record Postings := mkPostings {
  data : option nat;
  len : nat;
  cap : nat
}.

Definition nil_Postings : Postings := mkPostings None 0 0.

(** The postings a header denotes in a memory. *)
Definition elems (m : memory) (ps : Postings) : list Posting :=
  match data ps with
  | Some a => take (len ps) (drop a m)
  | None => []
  end.

(** A header is backed when all its cells are in the memory. *)
Definition backed (m : memory) (ps : Postings) : Prop :=
  match data ps with
  | Some a => (a + len ps <= length m)%nat
  | None => len ps = 0%nat
  end.

(** ** Memory and panic monad *)

Definition M (A : Type) : Type := memory -> option (A * memory).

Definition ret {A} (x : A) : M A := fun m => Some (x, m).

Definition bind {A B} (c : M A) (k : A -> M B) : M B :=
  fun m => match c m with
           | Some (x, m') => k x m'
           | None => None
           end.

Notation "x <- c ;; k" := (bind c (fun x => k))
  (at level 100, c at next level, right associativity).
Notation "c ;;; k" := (bind c (fun _ => k))
  (at level 100, right associativity).

(** [ps[i]] as a value: bounds check against [len(ps)], then a load. *)
Definition index (ps : Postings) (i : Z) : M Posting :=
  fun m =>
    if (0 <=? i) && (i <? Z.of_nat (len ps)) then
      match data ps with
      | Some a =>
          match m !! (a + Z.to_nat i)%nat with
          | Some p => Some (p, m)
          | None => None
          end
      | None => None
      end
    else None.

(** [ps[i] = p]: bounds check, then a store into the shared cell. *)
Definition assign (ps : Postings) (i : Z) (p : Posting) : M unit :=
  fun m =>
    if (0 <=? i) && (i <? Z.of_nat (len ps)) then
      match data ps with
      | Some a =>
          if decide (a + Z.to_nat i < length m)%nat
          then Some (tt, <[(a + Z.to_nat i)%nat := p]> m)
          else None
      | None => None
      end
    else None.

(** [ps[i].Source = s] and [ps[i].Destination = d]. *)
Definition assign_Source (ps : Postings) (i : Z) (s : string) : M unit :=
  p <- index ps i ;;
  assign ps i (mkPosting s (Destination p) (Amount p) (Asset p)).

Definition assign_Destination (ps : Postings) (i : Z) (d : string) : M unit :=
  p <- index ps i ;;
  assign ps i (mkPosting (Source p) d (Amount p) (Asset p)).

(** [ps[i].Source, ps[i].Destination = ps[i].Destination, ps[i].Source]:
    Go evaluates the right-hand side first, then assigns left to right. *)
Definition swap_ends (ps : Postings) (i : Z) : M unit :=
  pd <- index ps i ;;
  psrc <- index ps i ;;
  assign_Source ps i (Destination pd) ;;;
  assign_Destination ps i (Source psrc).

(** ** [func (ps Postings) Reverse()] *)

(** One iteration of the loop body at index [i]. *)
Definition Reverse_body (ps : Postings) (i : Z) : M unit :=
  let opp := Z.of_nat (len ps) - 1 - i in
  a <- index ps opp ;;
  b <- index ps i ;;
  assign ps i a ;;;
  assign ps opp b ;;;
  swap_ends ps i ;;;
  swap_ends ps opp.

(** [for i := len(ps)/2 - 1; i >= 0; i--].  The counter is [i + 1]: at
    [S i] the body runs at index [i], at [0] the test [i >= 0] fails. *)
Fixpoint Reverse_loop (ps : Postings) (n : nat) : M unit :=
  match n with
  | O => ret tt
  | S i => Reverse_body ps (Z.of_nat i) ;;; Reverse_loop ps i
  end.

Definition Postings_Reverse (ps : Postings) : M unit :=
  if Z.of_nat (len ps) =? 1 then swap_ends ps 0
  else Reverse_loop ps (Z.to_nat (Z.of_nat (len ps) / 2 - 1 + 1)).

(** ** Transactions *)

(** What the value model takes from outside the package sources at hand.

    [core.Metadata] is declared in a file that is not among them; the tests
    build it as a map from strings to [json.RawMessage].  The model needs
    its zero value (the nil map) and how [encoding/json] writes it, which
    can fail.  How [encoding/json] quotes a Go string belongs to Go's
    standard library. *)
Class Library (Metadata : Type) := {
  nil_Metadata : Metadata;
  json_string : string -> list byte;
  json_Metadata : Metadata -> option (list byte)
}.

(** [type Transaction struct]. *)
Record Transaction (Metadata : Type) := mkTransaction {
  t_ID : Z;
  t_Postings : Postings;
  t_Reference : string;
  t_Timestamp : string;
  t_Hash : string;
  t_Metadata : Metadata
}.
Arguments mkTransaction {Metadata}.
Arguments t_ID {Metadata}.
Arguments t_Postings {Metadata}.
Arguments t_Reference {Metadata}.
Arguments t_Timestamp {Metadata}.
Arguments t_Hash {Metadata}.
Arguments t_Metadata {Metadata}.

(** [func (t *Transaction) Reverse() Transaction]: the local [postings] is
    a copy of the header of [t.Postings], not of its cells. *)
Definition Transaction_Reverse `{Library Metadata}
    (t : Transaction Metadata) : M (Transaction Metadata) :=
  let postings := t_Postings t in
  Postings_Reverse postings ;;;
  ret (mkTransaction 0 postings ("revert_" ++ t_Reference t)%string
         EmptyString EmptyString nil_Metadata).

(** ** [func (t *Transaction) AppendPosting(p Posting)] *)

(** When the capacity is used up, [append] moves the elements to a new
    backing array.  Which capacity the runtime picks for it is the
    runtime's business; it is at least the length needed. *)
Class Runtime := {
  growslice_cap : nat -> nat -> nat;
  growslice_enough :
    forall old need : nat, (need <= growslice_cap old need)%nat
}.

(** The zero value of [Posting], which fills a new array. *)
Definition zero_Posting : Posting :=
  mkPosting EmptyString EmptyString 0 EmptyString.

(** [append(ps, p)].  With spare capacity the posting is stored in the cell
    after the last one of the same backing array; otherwise the elements
    are copied to a new array at the end of the memory, followed by [p] and
    zero values up to the new capacity. *)
Definition append `{Runtime} (ps : Postings) (p : Posting) : M Postings :=
  fun m =>
    if (len ps <? cap ps)%nat then
      match data ps with
      | Some a =>
          if decide (a + len ps < length m)%nat
          then Some (mkPostings (Some a) (S (len ps)) (cap ps),
                     <[(a + len ps)%nat := p]> m)
          else None
      | None => None
      end
    else
      let c := growslice_cap (cap ps) (S (len ps)) in
      Some (mkPostings (Some (length m)) (S (len ps)) c,
            m ++ elems m ps ++ p :: replicate (c - S (len ps)) zero_Posting).

(** [t.Postings = append(t.Postings, p)] on the transaction [t] points to;
    the transaction after the call is returned. *)
Definition Transaction_AppendPosting `{Runtime} {Metadata : Type}
    (t : Transaction Metadata) (p : Posting) : M (Transaction Metadata) :=
  ps <- append (t_Postings t) p ;;
  ret (mkTransaction (t_ID t) ps (t_Reference t) (t_Timestamp t) (t_Hash t)
         (t_Metadata t)).

(** Calls of [AppendPosting] in a row, one for each posting of [l]. *)
Fixpoint AppendPosting_each `{Runtime} {Metadata : Type}
    (t : Transaction Metadata) (l : list Posting)
  : M (Transaction Metadata) :=
  match l with
  | [] => ret t
  | p :: l' =>
      t' <- Transaction_AppendPosting t p ;; AppendPosting_each t' l'
  end.

(** A slice header as Go makes them: the length within the capacity, the
    capacity within the memory, and no capacity on the nil slice. *)
Definition well_formed (m : memory) (ps : Postings) : Prop :=
  (len ps <= cap ps)%nat /\
  match data ps with
  | Some a => (a + cap ps <= length m)%nat
  | None => cap ps = 0%nat
  end.

(** ** [crypto/sha256]

    Go's standard library, after its portable implementation: the block
    function on 64-byte chunks and the digest that buffers what is written
    to it. *)

Module sha256.

Definition chunk : nat := 64.

(** [uint32] arithmetic wraps. *)
Definition u32 (z : Z) : Z := z mod 2 ^ 32.

(** [bits.RotateLeft32(x, -n)]. *)
Definition rotr (x n : Z) : Z :=
  Z.lor (Z.shiftr x n) (u32 (Z.shiftl x (32 - n))).

(** [^x] on a [uint32]. *)
Definition not32 (x : Z) : Z := Z.lxor x 4294967295.

Definition _K : list Z :=
  [0x428a2f98; 0x71374491; 0xb5c0fbcf; 0xe9b5dba5] ++
  [0x3956c25b; 0x59f111f1; 0x923f82a4; 0xab1c5ed5] ++
  [0xd807aa98; 0x12835b01; 0x243185be; 0x550c7dc3] ++
  [0x72be5d74; 0x80deb1fe; 0x9bdc06a7; 0xc19bf174] ++
  [0xe49b69c1; 0xefbe4786; 0x0fc19dc6; 0x240ca1cc] ++
  [0x2de92c6f; 0x4a7484aa; 0x5cb0a9dc; 0x76f988da] ++
  [0x983e5152; 0xa831c66d; 0xb00327c8; 0xbf597fc7] ++
  [0xc6e00bf3; 0xd5a79147; 0x06ca6351; 0x14292967] ++
  [0x27b70a85; 0x2e1b2138; 0x4d2c6dfc; 0x53380d13] ++
  [0x650a7354; 0x766a0abb; 0x81c2c92e; 0x92722c85] ++
  [0xa2bfe8a1; 0xa81a664b; 0xc24b8b70; 0xc76c51a3] ++
  [0xd192e819; 0xd6990624; 0xf40e3585; 0x106aa070] ++
  [0x19a4c116; 0x1e376c08; 0x2748774c; 0x34b0bcb5] ++
  [0x391c0cb3; 0x4ed8aa4a; 0x5b9cca4f; 0x682e6ff3] ++
  [0x748f82ee; 0x78a5636f; 0x84c87814; 0x8cc70208] ++
  [0x90befffa; 0xa4506ceb; 0xbef9a3f7; 0xc67178f2].

(** [init0 .. init7]. *)
Definition init : list Z :=
  [ 0x6a09e667; 0xbb67ae85; 0x3c6ef372; 0xa54ff53a;
    0x510e527f; 0x9b05688c; 0x1f83d9ab; 0x5be0cd19 ].

Definition byte_Z (b : byte) : Z := Z.of_N (Byte.to_N b).

Definition Z_byte (z : Z) : byte :=
  match Byte.of_N (Z.to_N (z mod 256)) with
  | Some b => b
  | None => x00
  end.

(** [uint32(p[j])<<24 | uint32(p[j+1])<<16 | uint32(p[j+2])<<8 |
    uint32(p[j+3])]. *)
Definition be32 (p : list byte) (j : nat) : Z :=
  let at_ k := byte_Z (nth k p x00) in
  Z.lor (Z.lor (Z.lor (Z.shiftl (at_ j) 24) (Z.shiftl (at_ (j + 1)%nat) 16))
               (Z.shiftl (at_ (j + 2)%nat) 8))
        (at_ (j + 3)%nat).

(** The first loop of a block: [w[i]] for [i < 16]. *)
Definition load_words (p : list byte) : list Z :=
  map (fun i => be32 p (i * 4)) (seq 0 16).

(** The second loop: [w[i]] for [16 <= i < 64]; [w] holds [w[0..i-1]]. *)
Fixpoint extend (n : nat) (w : list Z) : list Z :=
  match n with
  | O => w
  | S n' =>
      let i := length w in
      let v1 := nth (i - 2) w 0 in
      let t1 := Z.lxor (Z.lxor (rotr v1 17) (rotr v1 19)) (Z.shiftr v1 10) in
      let v2 := nth (i - 15) w 0 in
      let t2 := Z.lxor (Z.lxor (rotr v2 7) (rotr v2 18)) (Z.shiftr v2 3) in
      extend n' (w ++ [u32 (t1 + nth (i - 7) w 0 + t2 + nth (i - 16) w 0)])
  end.

(** The working variables [a .. h]. *)
Record vars := mkVars { va : Z; vb : Z; vc : Z; vd : Z;
                        ve : Z; vf : Z; vg : Z; vh : Z }.

(** One round of the third loop. *)
Definition round (w : list Z) (s : vars) (i : nat) : vars :=
  let '(mkVars a b c d e f g h) := s in
  let t1 := u32 (h + Z.lxor (Z.lxor (rotr e 6) (rotr e 11)) (rotr e 25)
                   + Z.lxor (Z.land e f) (Z.land (not32 e) g)
                   + nth i _K 0 + nth i w 0) in
  let t2 := u32 (Z.lxor (Z.lxor (rotr a 2) (rotr a 13)) (rotr a 22)
                 + Z.lxor (Z.lxor (Z.land a b) (Z.land a c)) (Z.land b c)) in
  mkVars (u32 (t1 + t2)) a b c (u32 (d + t1)) e f g.

(** One pass of the outer loop of [blockGeneric]: the state after the
    64-byte chunk [p]. *)
Definition compress (hs : list Z) (p : list byte) : list Z :=
  let w := extend 48 (load_words p) in
  let h_ k := nth k hs 0 in
  let s := fold_left (round w) (seq 0 64)
             (mkVars (h_ 0%nat) (h_ 1%nat) (h_ 2%nat) (h_ 3%nat)
                     (h_ 4%nat) (h_ 5%nat) (h_ 6%nat) (h_ 7%nat)) in
  [ u32 (h_ 0%nat + va s); u32 (h_ 1%nat + vb s);
    u32 (h_ 2%nat + vc s); u32 (h_ 3%nat + vd s);
    u32 (h_ 4%nat + ve s); u32 (h_ 5%nat + vf s);
    u32 (h_ 6%nat + vg s); u32 (h_ 7%nat + vh s) ].

(** [for len(p) >= chunk { ...; p = p[chunk:] }], by the number of
    chunks that remain. *)
Fixpoint block_chunks (n : nat) (hs : list Z) (p : list byte) : list Z :=
  match n with
  | O => hs
  | S n' => block_chunks n' (compress hs (take chunk p)) (drop chunk p)
  end.

(** [block(dig, p)] on the state words. *)
Definition block (hs : list Z) (p : list byte) : list Z :=
  block_chunks (length p / chunk) hs p.

(** [type digest struct]. *)
Record digest := mkDigest {
  h : list Z;        (* [8]uint32 *)
  x : list byte;     (* [chunk]byte *)
  nx : nat;
  len : Z            (* uint64 *)
}.

(** [copy(dst[at:], src)] on a buffer: the number copied and the buffer. *)
Definition copy_at (dst : list byte) (at_ : nat) (src : list byte)
  : nat * list byte :=
  let n := Nat.min (length dst - at_) (length src) in
  (n, take at_ dst ++ take n src ++ drop (at_ + n) dst).

(** [New()], that is [Reset()] on a fresh digest. *)
Definition New : digest := mkDigest init (replicate chunk x00) 0 0.

(** [func (d *digest) Write(p []byte)], one definition per statement.

    [if d.nx > 0 { n := copy(d.x[d.nx:], p); d.nx += n;
       if d.nx == chunk { block(d, d.x[:]); d.nx = 0 }; p = p[n:] }]:
    the digest fields and the rest of [p]. *)
Definition Write_fill (d : digest) (p : list byte)
  : list Z * list byte * nat * list byte :=
  if (0 <? nx d)%nat then
    let '(n, x') := copy_at (x d) (nx d) p in
    let nx' := (nx d + n)%nat in
    if (nx' =? chunk)%nat
    then (block (h d) x', x', 0%nat, drop n p)
    else (h d, x', nx', drop n p)
  else (h d, x d, nx d, p).

(** [if len(p) >= chunk { n := len(p) &^ (chunk - 1); block(d, p[:n]);
       p = p[n:] }]. *)
Definition Write_blocks (hs : list Z) (p : list byte)
  : list Z * list byte :=
  if (chunk <=? length p)%nat then
    let n := Z.to_nat (Z.ldiff (Z.of_nat (length p))
                               (Z.of_nat chunk - 1)) in
    (block hs (take n p), drop n p)
  else (hs, p).

(** [if len(p) > 0 { d.nx = copy(d.x[:], p) }]. *)
Definition Write_keep (x0 : list byte) (nx0 : nat) (p : list byte)
  : list byte * nat :=
  if (0 <? length p)%nat then
    let '(n, x') := copy_at x0 0 p in (x', n)
  else (x0, nx0).

Definition Write (d : digest) (p : list byte) : digest :=
  let len' := (len d + Z.of_nat (length p)) mod 2 ^ 64 in
  let '(h1, x1, nx1, p1) := Write_fill d p in
  let '(h2, p2) := Write_blocks h1 p1 in
  let '(x3, nx3) := Write_keep x1 nx1 p2 in
  mkDigest h2 x3 nx3 len'.

(** [binary.BigEndian.PutUint64] and [PutUint32] as byte lists. *)
Definition be_bytes (n : nat) (v : Z) : list byte :=
  map (fun k => Z_byte (Z.shiftr v (8 * Z.of_nat (n - 1 - k)))) (seq 0 n).

(** [func (d *digest) checkSum() [Size]byte]; [None] is its
    [panic("d.nx != 0")]. *)
Definition checkSum (d : digest) : option (list byte) :=
  let l := len d in
  let tmp := x80 :: replicate 63 x00 in
  let d1 :=
    if l mod 64 <? 56 then Write d (take (Z.to_nat (56 - l mod 64)) tmp)
    else Write d (take (Z.to_nat (64 + 56 - l mod 64)) tmp) in
  let l8 := Z.shiftl l 3 mod 2 ^ 64 in
  let d2 := Write d1 (be_bytes 8 l8) in
  if (nx d2 =? 0)%nat
  then Some (concat (map (be_bytes 4) (h d2)))
  else None.

(** [func (d *digest) Sum(in []byte) []byte]: works on a copy of [d]. *)
Definition Sum (d : digest) (in_ : list byte) : option (list byte) :=
  match checkSum d with
  | Some hash => Some (in_ ++ hash)
  | None => None
  end.

End sha256.

(** ** [fmt.Sprintf("%x", b)] on a byte slice

    Two digits a byte out of [ldigits], high nibble first. *)
Definition ldigits : string := "0123456789abcdefx"%string.

Definition digit (n : N) : ascii :=
  match String.get (N.to_nat n) ldigits with
  | Some c => c
  | None => "0"%char
  end.

Fixpoint Sprintf_x (b : list byte) : string :=
  match b with
  | [] => EmptyString
  | c :: b' =>
      String (digit (N.shiftr (Byte.to_N c) 4))
        (String (digit (N.land (Byte.to_N c) 15)) (Sprintf_x b'))
  end.

(** ** [encoding/json] on a [*Transaction]

    Struct fields are written in declaration order under the names of their
    [json] tags; none is omitted. *)

Definition bytes (s : string) : list byte := list_byte_of_string s.

(** An [int64] in decimal. *)
Definition json_int (z : Z) : list byte :=
  bytes (NilZero.string_of_int (Z.to_int z)).

Fixpoint join (sep : byte) (parts : list (list byte)) : list byte :=
  match parts with
  | [] => []
  | [p] => p
  | p :: rest => p ++ sep :: join sep rest
  end.

(** A member of an object: the quoted name, a colon and the value. *)
Definition json_member (name : string) (value : list byte) : list byte :=
  x22 :: bytes name ++ x22 :: x3a :: value.

Definition json_object (fields : list (string * list byte)) : list byte :=
  x7b :: join x2c (map (fun f => json_member (fst f) (snd f)) fields)
      ++ [x7d].

Section Marshal.
Context `{Library Metadata}.

Definition Posting_fields (p : Posting) : list (string * list byte) :=
  [ ("source"%string, json_string (Source p));
    ("destination"%string, json_string (Destination p));
    ("amount"%string, json_int (Amount p));
    ("asset"%string, json_string (Asset p)) ].

(** A nil slice is written [null], any other slice as an array. *)
Definition json_Postings (m : memory) (ps : Postings) : list byte :=
  match data ps with
  | None => bytes "null"
  | Some _ =>
      x5b :: join x2c (map (fun p => json_object (Posting_fields p))
                           (elems m ps)) ++ [x5d]
  end.

Definition Transaction_fields (m : memory) (t : Transaction Metadata)
    (meta : list byte) : list (string * list byte) :=
  [ ("txid"%string, json_int (t_ID t));
    ("postings"%string, json_Postings m (t_Postings t));
    ("reference"%string, json_string (t_Reference t));
    ("timestamp"%string, json_string (t_Timestamp t));
    ("hash"%string, json_string (t_Hash t));
    ("metadata"%string, meta) ].

(** [json.Marshal(t)] for [t *Transaction]: [None] is the error return,
    which only the metadata can cause; a nil pointer is written [null]. *)
Definition json_Marshal (m : memory) (t : option (Transaction Metadata))
  : option (list byte) :=
  match t with
  | None => Some (bytes "null")
  | Some t =>
      match json_Metadata (t_Metadata t) with
      | Some meta => Some (json_object (Transaction_fields m t meta))
      | None => None
      end
  end.

(** [b, _ := json.Marshal(t)]: the error is dropped and [b] is nil then. *)
Definition Marshal_bytes (m : memory) (t : option (Transaction Metadata))
  : list byte :=
  match json_Marshal m t with
  | Some b => b
  | None => []
  end.

(** [func Hash(t1 *Transaction, t2 *Transaction) string]; [None] is the
    panic of [checkSum]. *)
Definition Hash (m : memory) (t1 t2 : option (Transaction Metadata))
  : option string :=
  let b1 := Marshal_bytes m t1 in
  let b2 := Marshal_bytes m t2 in
  let h := sha256.New in
  let h := sha256.Write h b1 in
  let h := sha256.Write h b2 in
  match sha256.Sum h [] with
  | Some s => Some (Sprintf_x s)
  | None => None
  end.
End Marshal.

(** ** The specification's notions *)

(** A posting with its source and destination swapped. *)
Definition swap (p : Posting) : Posting :=
  mkPosting (Destination p) (Source p) (Amount p) (Asset p).

(** The reversal of section 4.1: the postings in reversed order, each with
    its source and destination swapped. *)
Definition reversed (l : list Posting) : list Posting := rev (map swap l).

(** SHA-256 of a whole message, as FIPS 180-4 defines it: append a one
    bit, zero bits up to 56 modulo 64 bytes and the length in bits as a
    64-bit big-endian integer; then run the compression function over the
    64-byte blocks from the initial hash value. *)
Definition SHA256_pad (msg : list byte) : list byte :=
  let l := Z.of_nat (length msg) in
  msg ++ [x80] ++ replicate (Z.to_nat ((55 - l) mod 64)) x00
      ++ sha256.be_bytes 8 ((8 * l) mod 2 ^ 64).

Definition SHA256 (msg : list byte) : list byte :=
  concat (map (sha256.be_bytes 4) (sha256.block sha256.init (SHA256_pad msg))).

(** Lowercase hexadecimal: a digit below ten is ['0'] plus the digit, any
    other ['a'] plus the digit minus ten; a byte is its sixteens digit
    followed by its units digit. *)
Definition lowercase_digit (d : N) : ascii :=
  if (d <? 10)%N then ascii_of_N (48 + d) else ascii_of_N (97 + (d - 10)).

Definition lowercase_hex (b : list byte) : string :=
  string_of_list_ascii
    (flat_map (fun c => [lowercase_digit (Byte.to_N c / 16);
                         lowercase_digit (Byte.to_N c mod 16)]) b).

(** A character among [0] to [9] and [a] to [f]. *)
Definition lowercase_hex_digit (c : ascii) : bool :=
  existsb (Ascii.eqb c) (list_ascii_of_string "0123456789abcdef").

(** The serialization [b] includes the member [name] with value [value]. *)
Definition includes (b : list byte) (name : string) (value : list byte)
  : Prop :=
  exists before after : list byte,
    b = before ++ json_member name value ++ after.

(** The serialization [b] of [t] includes its id, postings, reference,
    timestamp and hash. *)
Definition includes_fields `{Library Metadata} (m : memory)
    (t : Transaction Metadata) (b : list byte) : Prop :=
  includes b "txid" (json_int (t_ID t)) /\
  includes b "postings" (json_Postings m (t_Postings t)) /\
  includes b "reference" (json_string (t_Reference t)) /\
  includes b "timestamp" (json_string (t_Timestamp t)) /\
  includes b "hash" (json_string (t_Hash t)).

(** ** Notions of the proofs *)

(** The middle cell of a slice of odd length other than 1. *)
Definition skipped (n i : nat) : Prop :=
  n <> 1%nat /\ n = (2 * (n / 2) + 1)%nat /\ i = (n / 2)%nat.

#[global] Instance skipped_dec n i : Decision (skipped n i).
Proof. unfold skipped. apply _. Defined.

(** What a digest holds after the message [msg] was written to it: the
    state after the whole chunks [done] of [msg], the pending bytes [rest]
    at the front of the buffer, and the length modulo 2^64. *)
Definition absorbed (d : sha256.digest) (msg : list byte) : Prop :=
  exists (done rest : list byte) (q : nat),
    msg = done ++ rest /\
    length done = (q * sha256.chunk)%nat /\
    (length rest < sha256.chunk)%nat /\
    sha256.h d = sha256.block sha256.init done /\
    length (sha256.x d) = sha256.chunk /\
    sha256.nx d = length rest /\
    take (sha256.nx d) (sha256.x d) = rest /\
    sha256.len d = Z.of_nat (length msg) mod 2 ^ 64.

(** Two headers whose cells do not overlap. *)
Definition apart (ps qs : Postings) : Prop :=
  match data ps, data qs with
  | Some a, Some b =>
      (b + len qs <= a)%nat \/ (a + len ps <= b)%nat
  | _, _ => True
  end.

(** ** An instance of the library

    Strings as [encoding/json] quotes them with [escapeHTML] set (Go releases
    before 1.22, which write every control character but newline, carriage
    return and tab as a [u00XX] escape), and the metadata that is the nil
    map. *)

(** [hex] of [encoding/json]. *)
Definition hex : string := "0123456789abcdef"%string.

Definition hex_at (n : N) : byte :=
  match String.get (N.to_nat n) hex with
  | Some c => byte_of_ascii c
  | None => x00
  end.

Definition in_range (lo hi : N) (b : byte) : bool :=
  (lo <=? Byte.to_N b)%N && (Byte.to_N b <=? hi)%N.

(** [utf8.DecodeRuneInString] as far as the encoder needs it: the size of
    the valid encoding at the head of [s], or [0] for [RuneError] with
    size 1. *)
Definition rune_size (s : list byte) : nat :=
  let cont := in_range 0x80 0xBF in
  match s with
  | b0 :: b1 :: rest =>
      let n0 := Byte.to_N b0 in
      if in_range 0xC2 0xDF b0 then (if cont b1 then 2 else 0)%nat
      else
        let second :=
          if (n0 =? 0xE0)%N then in_range 0xA0 0xBF b1
          else if (n0 =? 0xED)%N then in_range 0x80 0x9F b1
          else if (n0 =? 0xF0)%N then in_range 0x90 0xBF b1
          else if (n0 =? 0xF4)%N then in_range 0x80 0x8F b1
          else cont b1 in
        if in_range 0xE0 0xEF b0 then
          match rest with
          | b2 :: _ => if second && cont b2 then 3%nat else 0%nat
          | [] => 0%nat
          end
        else if in_range 0xF0 0xF4 b0 then
          match rest with
          | b2 :: b3 :: _ =>
              if second && cont b2 && cont b3 then 4%nat else 0%nat
          | _ => 0%nat
          end
        else 0%nat
  | _ => 0%nat
  end.

(** The rune at the head of [s] when it is U+2028 or U+2029. *)
Definition separator (s : list byte) : option N :=
  match s with
  | b0 :: b1 :: b2 :: _ =>
      if Byte.eqb b0 xe2 && Byte.eqb b1 x80 then
        if Byte.eqb b2 xa8 then Some 0x2028%N
        else if Byte.eqb b2 xa9 then Some 0x2029%N
        else None
      else None
  | _ => None
  end.

(** [htmlSafeSet]: printable ASCII but the double quote, ampersand, angle
    brackets and backslash. *)
Definition htmlSafe (b : byte) : bool :=
  in_range 0x20 0x7F b &&
  negb (existsb (Byte.eqb b) [x22; x26; x3c; x3e; x5c]).

(** The loop of [encodeState.string] with [escapeHTML] set.  [skip] counts
    the remaining bytes of a rune already decoded, which are copied when
    [keep] is set and were replaced by an escape otherwise. *)
Fixpoint escape (keep : bool) (skip : nat) (s : list byte) : list byte :=
  match s with
  | [] => []
  | b :: s' =>
      match skip with
      | S k => if keep then b :: escape keep k s' else escape keep k s'
      | O =>
          if (Byte.to_N b <? 0x80)%N then
            if htmlSafe b then b :: escape true 0 s'
            else if existsb (Byte.eqb b) [x22; x5c]
            then x5c :: b :: escape true 0 s'
            else if Byte.eqb b x0a then bytes "\n" ++ escape true 0 s'
            else if Byte.eqb b x0d then bytes "\r" ++ escape true 0 s'
            else if Byte.eqb b x09 then bytes "\t" ++ escape true 0 s'
            else bytes "\u00" ++ hex_at (N.shiftr (Byte.to_N b) 4)
                   :: hex_at (N.land (Byte.to_N b) 15) :: escape true 0 s'
          else
            match rune_size s with
            | O => [x5c; x75; x66; x66; x66; x64] ++ escape true 0 s'
            | S k =>
                match separator s with
                | Some c =>
                    [x5c; x75; x32; x30; x32] ++ hex_at (N.land c 15)
                      :: escape false k s'
                | None => b :: escape true k s'
                end
            end
      end
  end.

Definition Go_string (s : string) : list byte :=
  x22 :: escape true 0 (bytes s) ++ [x22].

(** The nil map, which [encoding/json] writes [null]. *)
Inductive NilMetadata := nilmap.

#[global] Instance Go_library : Library NilMetadata := {|
  nil_Metadata := nilmap;
  json_string := Go_string;
  json_Metadata := fun _ => Some (bytes "null")
|}.

(** A runtime that doubles the capacity, or takes the length needed when
    that is more. *)
#[global] Instance doubling : Runtime := {|
  growslice_cap := fun old need => Nat.max need (2 * old);
  growslice_enough := fun old need => Nat.le_max_l need (2 * old)
|}.

(** A metadata that is the nil map or a map with an entry whose raw message
    is not JSON, which [encoding/json] refuses to write. *)
Inductive SampleMetadata := sample_nil | sample_invalid.

#[global] Instance sample_library : Library SampleMetadata := {|
  nil_Metadata := sample_nil;
  json_string := Go_string;
  json_Metadata := fun md =>
    match md with
    | sample_nil => Some (bytes "null")
    | sample_invalid => None
    end
|}.

(** ** Sample ledgers *)

(** A transaction of three postings in cells 0 to 2. *)
Definition mem3 : memory :=
  [ mkPosting "world" "mint" 100 "GEM";
    mkPosting "mint" "alice" 100 "GEM";
    mkPosting "alice" "bob" 100 "GEM" ].

Definition tx3 : Transaction NilMetadata :=
  mkTransaction 0 (mkPostings (Some 0%nat) 3 3) "ref" EmptyString EmptyString
    nilmap.

(** The transaction of [TestRevertTransaction]. *)
Definition mem1 : memory := [ mkPosting "world" "payments:001" 100 "COIN" ].

Definition tx1 : Transaction NilMetadata :=
  mkTransaction 0 (mkPostings (Some 0%nat) 1 1) "foo" EmptyString EmptyString
    nilmap.

(** The zero-value transaction, the predecessor of the first one. *)
Definition sentinel : Transaction NilMetadata :=
  mkTransaction 0 nil_Postings EmptyString EmptyString EmptyString nilmap.

(** Headers over the cells of [mem3]: all three, the first two, the last. *)
Definition ps_all : Postings := mkPostings (Some 0%nat) 3 3.
Definition ps_pair : Postings := mkPostings (Some 0%nat) 2 3.
Definition ps_last : Postings := mkPostings (Some 2%nat) 1 1.

(** A transaction over the first two cells of [mem3], with room for a
    third posting in the same array. *)
Definition tx_pair : Transaction NilMetadata :=
  mkTransaction 0 ps_pair "pair" EmptyString EmptyString nilmap.

Definition p_new : Posting := mkPosting "bob" "carol" 7 "GEM".

(** A transaction that [encoding/json] cannot write. *)
Definition tx_invalid : Transaction SampleMetadata :=
  mkTransaction 4 nil_Postings "bad" EmptyString EmptyString sample_invalid.

Definition tx_valid : Transaction SampleMetadata :=
  mkTransaction 5 nil_Postings "good" EmptyString EmptyString sample_nil.

(** The zero-value transaction but for postings that are an empty slice
    instead of the nil one. *)
Definition tx_empty : Transaction NilMetadata :=
  mkTransaction 0 (mkPostings (Some 0%nat) 0 0) EmptyString EmptyString
    EmptyString nilmap.

(** * Proofs *)

(** ** What [Postings.Reverse] does to the memory *)

Section ReverseSteps.
Variables (ps : Postings) (a : nat).
Hypothesis Hdata : data ps = Some a.

Lemma index_ok (i : nat) (m : memory) (p : Posting) :
  (i < len ps)%nat -> m !! (a + i)%nat = Some p ->
  index ps (Z.of_nat i) m = Some (p, m).
Proof.
  intros Hi Hp. unfold index. rewrite Hdata, Nat2Z.id, Hp.
  destruct (Z.leb_spec 0 (Z.of_nat i)); [|lia].
  destruct (Z.ltb_spec (Z.of_nat i) (Z.of_nat (len ps))); [|lia].
  reflexivity.
Qed.

Lemma assign_ok (i : nat) (m : memory) (p : Posting) :
  (i < len ps)%nat -> (a + i < length m)%nat ->
  assign ps (Z.of_nat i) p m = Some (tt, <[(a + i)%nat := p]> m).
Proof.
  intros Hi Hm. unfold assign. rewrite Hdata, Nat2Z.id.
  destruct (Z.leb_spec 0 (Z.of_nat i)); [|lia].
  destruct (Z.ltb_spec (Z.of_nat i) (Z.of_nat (len ps))); [|lia].
  simpl. destruct (decide _); [reflexivity | lia].
Qed.

Lemma swap_ends_ok (i : nat) (m : memory) (p : Posting) :
  (i < len ps)%nat -> m !! (a + i)%nat = Some p ->
  swap_ends ps (Z.of_nat i) m = Some (tt, <[(a + i)%nat := swap p]> m).
Proof.
  intros Hi Hp.
  assert (Hm : (a + i < length m)%nat) by (eapply lookup_lt_Some; eauto).
  unfold swap_ends, assign_Source, assign_Destination, bind.
  rewrite !(index_ok i m p Hi Hp).
  rewrite (assign_ok i m _ Hi Hm).
  erewrite index_ok; [| exact Hi | apply list_lookup_insert_eq; exact Hm].
  rewrite assign_ok; [| exact Hi | rewrite length_insert; exact Hm].
  simpl. rewrite list_insert_insert_eq. reflexivity.
Qed.

(** One iteration exchanges the cells at [i] and [len - 1 - i] and swaps
    the ends of both. *)
Lemma Reverse_body_ok (i : nat) (m : memory) (x y : Posting) :
  (2 * i + 1 < len ps)%nat ->
  m !! (a + i)%nat = Some x ->
  m !! (a + (len ps - 1 - i))%nat = Some y ->
  Reverse_body ps (Z.of_nat i) m =
    Some (tt, <[(a + (len ps - 1 - i))%nat := swap x]>
                (<[(a + i)%nat := swap y]> m)).
Proof.
  intros Hi Hx Hy.
  assert (Hmx : (a + i < length m)%nat) by (eapply lookup_lt_Some; eauto).
  assert (Hmy : (a + (len ps - 1 - i) < length m)%nat)
    by (eapply lookup_lt_Some; eauto).
  unfold Reverse_body, bind.
  replace (Z.of_nat (len ps) - 1 - Z.of_nat i)
    with (Z.of_nat (len ps - 1 - i)) by lia.
  rewrite (index_ok _ m y) by (lia || assumption).
  rewrite (index_ok _ m x) by (lia || assumption).
  rewrite assign_ok by (lia || assumption).
  rewrite assign_ok by (rewrite ?length_insert; lia || assumption).
  erewrite swap_ends_ok; [| lia |].
  2:{ rewrite list_lookup_insert_ne by lia.
      apply list_lookup_insert_eq; lia. }
  erewrite swap_ends_ok; [| lia |].
  2:{ rewrite list_lookup_insert_ne by lia.
      apply list_lookup_insert_eq. rewrite length_insert. lia. }
  f_equal. f_equal.
  rewrite (list_insert_insert_ne _ (a + i)%nat (a + (len ps - 1 - i))%nat)
    by lia.
  rewrite !list_insert_insert_eq.
  reflexivity.
Qed.
End ReverseSteps.

(** The loop run for [k] iterations (indices [k-1] down to [0]) rewrites
    the first [k] and the last [k] cells of the slice, each with the swapped
    mirror cell, and nothing else. *)
Lemma Reverse_loop_ok (ps : Postings) (a k : nat) :
  data ps = Some a ->
  forall m : memory,
    (a + len ps <= length m)%nat -> (2 * k <= len ps)%nat ->
    exists m' : memory,
      Reverse_loop ps k m = Some (tt, m') /\
      length m' = length m /\
      forall j : nat,
        m' !! j =
          if decide ((a <= j < a + k)%nat \/
                     (a + len ps - k <= j < a + len ps)%nat)
          then swap <$> m !! (a + (len ps - 1 - (j - a)))%nat
          else m !! j.
Proof.
  intros Hdata. induction k as [|i IH]; intros m Hm Hk.
  - exists m. split; [reflexivity|]. split; [reflexivity|].
    intros j. case_decide; [lia | reflexivity].
  - destruct (lookup_lt_is_Some_2 m (a + i)%nat) as [x Hx]; [lia|].
    destruct (lookup_lt_is_Some_2 m (a + (len ps - 1 - i))%nat) as [y Hy];
      [lia|].
    simpl. unfold bind at 1.
    rewrite (Reverse_body_ok ps a Hdata i m x y) by (lia || assumption).
    set (m1 := <[(a + (len ps - 1 - i))%nat := swap x]>
                 (<[(a + i)%nat := swap y]> m)).
    assert (Hlen1 : length m1 = length m)
      by (unfold m1; rewrite !length_insert; reflexivity).
    destruct (IH m1) as (m' & Hrun & Hlen & Hcells); [lia | lia |].
    exists m'. split; [exact Hrun|]. split; [congruence|].
    intros j. rewrite Hcells. unfold m1.
    repeat case_decide; try lia.
    + rewrite !list_lookup_insert_ne by lia. reflexivity.
    + destruct (decide (j = (a + i)%nat)) as [->|Hne].
      * rewrite list_lookup_insert_ne by lia.
        rewrite list_lookup_insert_eq by lia.
        replace (a + (len ps - 1 - (a + i - a)))%nat
          with (a + (len ps - 1 - i))%nat by lia.
        rewrite Hy. reflexivity.
      * assert (j = (a + (len ps - 1 - i))%nat) as -> by lia.
        rewrite list_lookup_insert_eq by (rewrite length_insert; lia).
        replace (a + (len ps - 1 - (a + (len ps - 1 - i) - a)))%nat
          with (a + i)%nat by lia.
        rewrite Hx. reflexivity.
    + rewrite !list_lookup_insert_ne by lia. reflexivity.
Qed.


(** ** [Postings.Reverse] against the reversal of the specification *)

Lemma reversed_lookup (l : list Posting) (i : nat) :
  (i < length l)%nat ->
  reversed l !! i = swap <$> l !! (length l - 1 - i)%nat.
Proof.
  intros Hi. unfold reversed. rewrite rev_alt.
  change (rev_append (map swap l) []) with (reverse (swap <$> l)).
  rewrite reverse_lookup by (rewrite length_fmap; exact Hi).
  rewrite length_fmap, list_lookup_fmap. f_equal. f_equal. lia.
Qed.

Lemma elems_lookup (m : memory) (ps : Postings) (a i : nat) :
  data ps = Some a -> (i < len ps)%nat ->
  elems m ps !! i = m !! (a + i)%nat.
Proof.
  intros Hdata Hi. unfold elems. rewrite Hdata.
  rewrite lookup_take_lt by exact Hi. apply lookup_drop.
Qed.

Lemma elems_length (m : memory) (ps : Postings) :
  backed m ps -> length (elems m ps) = len ps.
Proof.
  unfold backed, elems. destruct (data ps) as [a|]; intros Hb.
  - rewrite length_take, length_drop. lia.
  - simpl. lia.
Qed.

Lemma loop_count (n : nat) :
  Z.to_nat (Z.of_nat n / 2 - 1 + 1) = (n / 2)%nat.
Proof.
  replace (Z.of_nat n / 2 - 1 + 1) with (Z.of_nat n / 2) by lia.
  change 2 with (Z.of_nat 2). rewrite <- Nat2Z.inj_div. apply Nat2Z.id.
Qed.

(** [Postings.Reverse] never panics on a backed slice, keeps every cell
    outside the slice, and leaves in cell [i] the swapped mirror cell, except
    in the skipped middle cell, which keeps its posting as it was. *)
Theorem Postings_Reverse_cells (ps : Postings) (m : memory) :
  backed m ps ->
  exists m' : memory,
    Postings_Reverse ps m = Some (tt, m') /\
    length m' = length m /\
    (forall (a j : nat), data ps = Some a ->
        (j < a \/ a + len ps <= j)%nat -> m' !! j = m !! j) /\
    (data ps = None -> m' = m) /\
    (forall i : nat, (i < len ps)%nat ->
        elems m' ps !! i =
          if decide (skipped (len ps) i) then elems m ps !! i
          else swap <$> elems m ps !! (len ps - 1 - i)%nat).
Proof.
  unfold backed. destruct (data ps) as [a|] eqn:Hdata; intros Hb.
  - unfold Postings_Reverse.
    destruct (Z.eqb_spec (Z.of_nat (len ps)) 1) as [H1|H1].
    + assert (Hn : len ps = 1%nat) by lia.
      destruct (lookup_lt_is_Some_2 m (a + 0)%nat) as [p Hp]; [lia|].
      change 0 with (Z.of_nat 0).
      rewrite (swap_ends_ok ps a Hdata 0 m p) by (lia || assumption).
      eexists. split; [reflexivity|].
      split; [apply length_insert|].
      split; [|split; [discriminate|]].
      * intros a' j [= <-] Hj. apply list_lookup_insert_ne. lia.
      * intros i Hi. assert (i = 0%nat) as -> by lia.
        rewrite !(elems_lookup _ ps a) by (assumption || lia).
        case_decide as Hs; [unfold skipped in Hs; lia|].
        rewrite Hn. simpl.
        rewrite list_lookup_insert_eq by lia. rewrite Hp. reflexivity.
    + rewrite loop_count.
      pose proof (Nat.div_mod_eq (len ps) 2) as Hdm.
      pose proof (Nat.mod_upper_bound (len ps) 2 ltac:(lia)) as Hr.
      destruct (Reverse_loop_ok ps a (len ps / 2) Hdata m)
        as (m' & Hrun & Hlen & Hcells); [lia | lia |].
      exists m'. split; [exact Hrun|]. split; [exact Hlen|].
      split; [|split; [discriminate|]].
      * intros a' j [= <-] Hj. rewrite Hcells. case_decide; [lia|reflexivity].
      * intros i Hi.
        rewrite !(elems_lookup _ ps a) by (assumption || lia).
        rewrite Hcells. unfold skipped.
        repeat case_decide; try lia; try reflexivity.
        f_equal. f_equal. lia.
  - unfold Postings_Reverse. rewrite Hb. simpl.
    exists m. split; [reflexivity|]. split; [reflexivity|].
    split; [discriminate|]. split; [reflexivity|]. intros i Hi. lia.
Qed.

(** On a slice of even length, or of length 1, [Postings.Reverse] leaves the
    specification's reversal in the slice. *)
Lemma Postings_Reverse_reversed (ps : Postings) (m : memory) :
  backed m ps ->
  len ps = 1%nat \/ len ps = (2 * (len ps / 2))%nat ->
  exists m' : memory,
    Postings_Reverse ps m = Some (tt, m') /\
    elems m' ps = reversed (elems m ps).
Proof.
  intros Hb Hn.
  destruct (Postings_Reverse_cells ps m Hb)
    as (m' & Hrun & Hlen & Hout & Hnil & Hin).
  exists m'. split; [exact Hrun|].
  assert (Hb' : backed m' ps)
    by (unfold backed in *; destruct (data ps); congruence).
  apply list_eq. intros i.
  destruct (decide (i < len ps)%nat) as [Hi|Hi].
  - rewrite Hin by exact Hi.
    rewrite reversed_lookup by (rewrite elems_length by exact Hb; exact Hi).
    rewrite (elems_length m ps Hb).
    case_decide as Hs; [unfold skipped in Hs; lia | reflexivity].
  - rewrite !lookup_ge_None_2; [reflexivity | |].
    + unfold reversed. rewrite length_rev, length_map, elems_length by exact Hb.
      lia.
    + rewrite elems_length by exact Hb'. lia.
Qed.

(** On a slice of odd length 3 or more, the middle posting keeps its source
    and destination: the loop stops before it and only the length-1 case
    swaps a lone posting. *)
Lemma Postings_Reverse_middle (ps : Postings) (m : memory) :
  backed m ps ->
  len ps <> 1%nat -> len ps = (2 * (len ps / 2) + 1)%nat ->
  exists m' : memory,
    Postings_Reverse ps m = Some (tt, m') /\
    elems m' ps !! (len ps / 2)%nat = elems m ps !! (len ps / 2)%nat.
Proof.
  intros Hb H1 Hodd.
  destruct (Postings_Reverse_cells ps m Hb)
    as (m' & Hrun & Hlen & Hout & Hnil & Hin).
  exists m'. split; [exact Hrun|].
  rewrite Hin by lia.
  case_decide as Hs; [reflexivity|].
  exfalso. apply Hs. unfold skipped. auto.
Qed.

(** ** [Transaction.Reverse] *)

Section TransactionReverse.
Context `{Library Metadata}.

(** The returned transaction carries the receiver's slice header, bears
    the prefixed reference and zero values elsewhere; the memory is the one
    [Postings.Reverse] left. *)
Lemma Transaction_Reverse_run (t : Transaction Metadata) (m m' : memory) :
  Postings_Reverse (t_Postings t) m = Some (tt, m') ->
  Transaction_Reverse t m =
    Some (mkTransaction 0 (t_Postings t)
            ("revert_" ++ t_Reference t)%string EmptyString EmptyString
            nil_Metadata, m').
Proof.
  intros Hrun. unfold Transaction_Reverse, bind. rewrite Hrun. reflexivity.
Qed.

(** [Transaction.Reverse] returns on every transaction whose postings are
    backed, and the reference of the result is the receiver's reference
    after ["revert_"]. *)
Lemma Transaction_Reverse_total (t : Transaction Metadata) (m : memory) :
  backed m (t_Postings t) ->
  exists (r : Transaction Metadata) (m' : memory),
    Transaction_Reverse t m = Some (r, m') /\
    t_Postings r = t_Postings t /\
    t_Reference r = ("revert_" ++ t_Reference t)%string.
Proof.
  intros Hb.
  destruct (Postings_Reverse_cells _ m Hb) as (m' & Hrun & _).
  eexists _, m'. rewrite (Transaction_Reverse_run t m m' Hrun).
  split; [reflexivity|]. split; reflexivity.
Qed.
End TransactionReverse.

(** ** The streaming digest computes SHA-256 *)

Module sha256_facts.
Import sha256.

Lemma block_short (hs : list Z) (p : list byte) :
  (length p < chunk)%nat -> block hs p = hs.
Proof.
  intros Hp. unfold block. rewrite Nat.div_small by exact Hp. reflexivity.
Qed.

Lemma block_chunks_app (n k : nat) :
  forall (hs : list Z) (p q : list byte),
    length p = (n * chunk)%nat ->
    block_chunks (n + k) hs (p ++ q) =
      block_chunks k (block_chunks n hs p) q.
Proof.
  induction n as [|n IH]; intros hs p q Hp.
  - destruct p; [reflexivity | discriminate].
  - simpl. rewrite take_app_le, drop_app_le by (unfold chunk in *; lia).
    apply IH. rewrite length_drop. unfold chunk in *. lia.
Qed.

(** Whole chunks may be processed ahead of what follows them. *)
Lemma block_app (hs : list Z) (p q : list byte) :
  (length p mod chunk = 0)%nat ->
  block hs (p ++ q) = block (block hs p) q.
Proof.
  intros Hp. unfold block.
  pose proof (Nat.div_mod_eq (length p) chunk) as Hdm.
  rewrite Hp, Nat.add_0_r, Nat.mul_comm in Hdm.
  rewrite length_app.
  replace ((length p + length q) / chunk)%nat
    with (length p / chunk + length q / chunk)%nat.
  - apply block_chunks_app. exact Hdm.
  - rewrite Hdm at 2. rewrite Nat.div_add_l by (unfold chunk; lia).
    reflexivity.
Qed.

(** A trailing partial chunk is not processed. *)
Lemma block_app_short (hs : list Z) (p q : list byte) :
  (length p mod chunk = 0)%nat -> (length q < chunk)%nat ->
  block hs (p ++ q) = block hs p.
Proof.
  intros Hp Hq. rewrite block_app by exact Hp. apply block_short, Hq.
Qed.

Lemma clear_low_bits (n : nat) :
  Z.to_nat (Z.ldiff (Z.of_nat n) (Z.of_nat chunk - 1)) =
    (n - n mod chunk)%nat.
Proof.
  change (Z.of_nat chunk - 1) with (Z.ones 6).
  rewrite Z.ldiff_ones_r, Z.shiftr_div_pow2, Z.shiftl_mul_pow2 by lia.
  change (2 ^ 6) with (Z.of_nat chunk).
  rewrite <- Nat2Z.inj_div, <- Nat2Z.inj_mul, Nat2Z.id.
  pose proof (Nat.div_mod_eq n chunk). lia.
Qed.

Lemma whole_chunks (p : list byte) (q : nat) :
  length p = (q * chunk)%nat -> (length p mod chunk = 0)%nat.
Proof. intros ->. apply Nat.Div0.mod_mul. Qed.

Lemma absorbed_New : absorbed New [].
Proof.
  exists [], [], 0%nat. repeat split; try reflexivity.
  unfold chunk. simpl. lia.
Qed.

Lemma Write_fill_spec (d : digest) (done rest p : list byte) (q : nat) :
  length done = (q * chunk)%nat -> (length rest < chunk)%nat ->
  h d = block init done -> length (x d) = chunk ->
  nx d = length rest -> take (nx d) (x d) = rest ->
  exists (h1 : list Z) (x1 : list byte) (nx1 : nat) (p1 : list byte)
         (done1 rest1 : list byte) (q1 : nat),
    Write_fill d p = (h1, x1, nx1, p1) /\
    done ++ rest ++ p = done1 ++ rest1 ++ p1 /\
    length done1 = (q1 * chunk)%nat /\
    (length rest1 < chunk)%nat /\
    h1 = block init done1 /\
    length x1 = chunk /\
    nx1 = length rest1 /\
    take nx1 x1 = rest1 /\
    (nx1 <> 0%nat -> p1 = []).
Proof.
  intros Hdone Hrest Hh Hx Hnx Htake. unfold Write_fill.
  destruct (Nat.ltb_spec 0 (nx d)) as [Hpos|Hzero].
  - unfold copy_at. rewrite Hx, Htake.
    set (n := Nat.min (chunk - nx d) (length p)).
    destruct (Nat.eqb_spec (nx d + n) chunk) as [Hfull|Hpart].
    + exists (block (h d) (rest ++ take n p ++ drop (nx d + n) (x d))),
        (rest ++ take n p ++ drop (nx d + n) (x d)), 0%nat, (drop n p),
        (done ++ rest ++ take n p), [], (S q).
      assert (Hdrop : drop (nx d + n) (x d) = [])
        by (apply drop_ge; lia).
      rewrite Hdrop, app_nil_r.
      split; [reflexivity|].
      split; [simpl; rewrite <- !app_assoc, take_drop; reflexivity|].
      split; [rewrite !length_app, length_take; unfold chunk in *; lia|].
      split; [unfold chunk; simpl; lia|].
      split; [rewrite Hh, <- block_app by (eapply whole_chunks; eauto);
              reflexivity|].
      split; [rewrite length_app, length_take; lia|].
      split; [reflexivity|]. split; [reflexivity|]. intros []; reflexivity.
    + assert (Hn : n = length p) by lia.
      exists (h d), (rest ++ take n p ++ drop (nx d + n) (x d)),
        (nx d + n)%nat, (drop n p), done, (rest ++ p), q.
      assert (Hnil : drop n p = []) by (apply drop_ge; lia).
      assert (Hall : take n p = p) by (apply take_ge; lia).
      rewrite Hnil, Hall.
      split; [reflexivity|].
      split; [rewrite app_nil_r, app_assoc; reflexivity|].
      split; [exact Hdone|].
      split; [rewrite length_app; lia|].
      split; [exact Hh|].
      split; [rewrite !length_app, length_drop; lia|].
      split; [rewrite length_app; lia|].
      split; [|reflexivity].
      rewrite app_assoc. rewrite take_app_le by (rewrite length_app; lia).
      apply take_ge. rewrite length_app. lia.
  - assert (Hnil : rest = [])
      by (destruct rest; [reflexivity | simpl in Hnx; lia]).
    exists (h d), (x d), (nx d), p, done, rest, q.
    split; [reflexivity|]. split; [reflexivity|]. split; [exact Hdone|].
    split; [exact Hrest|]. split; [exact Hh|]. split; [exact Hx|].
    split; [exact Hnx|]. split; [exact Htake|]. intros; lia.
Qed.

Lemma Write_blocks_spec (hs : list Z) (done p : list byte) (q : nat) :
  length done = (q * chunk)%nat -> hs = block init done ->
  exists (h2 : list Z) (p2 done2 : list byte) (q2 : nat),
    Write_blocks hs p = (h2, p2) /\
    done ++ p = done2 ++ p2 /\
    length done2 = (q2 * chunk)%nat /\
    (length p2 < chunk)%nat /\
    h2 = block init done2.
Proof.
  intros Hdone ->. unfold Write_blocks.
  destruct (Nat.leb_spec chunk (length p)) as [Hge|Hlt].
  - rewrite clear_low_bits.
    pose proof (Nat.div_mod_eq (length p) chunk) as Hdm.
    pose proof (Nat.mod_upper_bound (length p) chunk ltac:(unfold chunk; lia))
      as Hr.
    set (n := (length p - length p mod chunk)%nat).
    exists (block (block init done) (take n p)), (drop n p),
      (done ++ take n p), (q + length p / chunk)%nat.
    split; [reflexivity|].
    split; [rewrite <- app_assoc, take_drop; reflexivity|].
    split; [rewrite length_app, length_take; unfold n; lia|].
    split; [rewrite length_drop; unfold n; lia|].
    rewrite <- block_app by (eapply whole_chunks; eauto). reflexivity.
  - exists (block init done), p, done, q.
    split; [reflexivity|]. split; [reflexivity|]. split; [exact Hdone|].
    split; [exact Hlt|]. reflexivity.
Qed.

Lemma Write_keep_spec (x0 p : list byte) :
  length x0 = chunk -> (length p < chunk)%nat ->
  exists (x3 : list byte),
    Write_keep x0 0 p = (x3, length p) /\
    length x3 = chunk /\ take (length p) x3 = p.
Proof.
  intros Hx Hp. unfold Write_keep.
  destruct (Nat.ltb_spec 0 (length p)) as [Hpos|Hzero].
  - unfold copy_at. rewrite Nat.sub_0_r, Hx.
    rewrite Nat.min_r by lia. simpl.
    rewrite take_ge by lia.
    exists (p ++ drop (length p) x0).
    split; [reflexivity|].
    split; [rewrite length_app, length_drop; lia|].
    rewrite take_app_le by lia. apply take_ge. lia.
  - assert (p = []) as -> by (destruct p; [reflexivity | simpl in *; lia]).
    exists x0. split; [reflexivity|]. split; [exact Hx | reflexivity].
Qed.

(** Writing [p] to a digest that absorbed [msg] gives one that absorbed
    [msg ++ p]. *)
Lemma Write_absorbed (d : digest) (msg p : list byte) :
  absorbed d msg -> absorbed (Write d p) (msg ++ p).
Proof.
  intros (done & rest & q & -> & Hdone & Hrest & Hh & Hx & Hnx & Htake
          & Hlen).
  destruct (Write_fill_spec d done rest p q Hdone Hrest Hh Hx Hnx Htake)
    as (h1 & x1 & nx1 & p1 & done1 & rest1 & q1 & Hfill & Hmsg & Hdone1
        & Hrest1 & Hh1 & Hx1 & Hnx1 & Htake1 & Hp1).
  assert (Hlen' : (len d + Z.of_nat (length p)) mod 2 ^ 64 =
                  Z.of_nat (length ((done ++ rest) ++ p)) mod 2 ^ 64).
  { rewrite Hlen, Z.add_mod_idemp_l by lia.
    rewrite (length_app _ p), Nat2Z.inj_add. reflexivity. }
  unfold Write. rewrite Hfill, Hlen'. clear Hlen'.
  rewrite <- app_assoc, Hmsg.
  destruct (decide (nx1 = 0%nat)) as [Hz|Hnz].
  - assert (rest1 = []) as ->
      by (destruct rest1; [reflexivity | simpl in Hnx1; lia]).
    destruct (Write_blocks_spec h1 done1 p1 q1 Hdone1 Hh1)
      as (h2 & p2 & done2 & q2 & Hblocks & Hmsg2 & Hdone2 & Hp2 & Hh2).
    rewrite Hblocks. subst nx1.
    destruct (Write_keep_spec x1 p2 Hx1 Hp2) as (x3 & Hkeep & Hx3 & Htake3).
    simpl length at 1. rewrite Hkeep.
    exists done2, p2, q2. simpl.
    rewrite Hmsg2. repeat split; assumption || reflexivity.
  - rewrite (Hp1 Hnz). unfold Write_blocks, Write_keep. simpl.
    exists done1, rest1, q1. simpl. rewrite !app_nil_r.
    repeat split; assumption || reflexivity.
Qed.

Lemma length_be_bytes (n : nat) (v : Z) : length (be_bytes n v) = n.
Proof. unfold be_bytes. rewrite length_map, length_seq. reflexivity. Qed.

(** The bytes [checkSum] writes before the length: [0x80] and zeros up to
    56 modulo 64. *)
Lemma padding_bytes (l z : Z) :
  l = z mod 2 ^ 64 ->
  (if l mod 64 <? 56
   then take (Z.to_nat (56 - l mod 64)) (x80 :: replicate 63 x00)
   else take (Z.to_nat (64 + 56 - l mod 64)) (x80 :: replicate 63 x00)) =
  [x80] ++ replicate (Z.to_nat ((55 - z) mod 64)) x00.
Proof.
  intros ->.
  assert (Hr : (z mod 2 ^ 64) mod 64 = z mod 64).
  { apply Z.mod_mod_divide. exists (2 ^ 58). reflexivity. }
  rewrite Hr.
  pose proof (Z.mod_pos_bound z 64 ltac:(lia)) as Hb.
  assert (Hk : (55 - z) mod 64 =
               if z mod 64 <? 56 then 55 - z mod 64 else 119 - z mod 64).
  { destruct (Z.ltb_spec (z mod 64) 56).
    - symmetry. apply (Z.mod_unique _ _ (- (z / 64))); [lia|].
      pose proof (Z.div_mod z 64 ltac:(lia)). lia.
    - symmetry. apply (Z.mod_unique _ _ (- (z / 64) - 1)); [lia|].
      pose proof (Z.div_mod z 64 ltac:(lia)). lia. }
  rewrite Hk.
  destruct (Z.ltb_spec (z mod 64) 56).
  - replace (Z.to_nat (56 - z mod 64)) with (S (Z.to_nat (55 - z mod 64)))
      by lia.
    rewrite firstn_cons, take_replicate. simpl. f_equal. f_equal. lia.
  - replace (Z.to_nat (64 + 56 - z mod 64))
      with (S (Z.to_nat (119 - z mod 64))) by lia.
    rewrite firstn_cons, take_replicate. simpl. f_equal. f_equal. lia.
Qed.

Lemma length_SHA256_pad (msg : list byte) :
  exists c : nat, length (SHA256_pad msg) = (c * chunk)%nat.
Proof.
  unfold SHA256_pad.
  rewrite !length_app, length_replicate, length_be_bytes. simpl length.
  set (z := Z.of_nat (length msg)).
  pose proof (Z.div_mod (55 - z) 64 ltac:(lia)) as Hdm.
  pose proof (Z.mod_pos_bound (55 - z) 64 ltac:(lia)) as Hb.
  exists (Z.to_nat (1 - (55 - z) / 64)). unfold chunk. lia.
Qed.

(** [checkSum] on a digest that absorbed [msg] does not panic and returns
    the SHA-256 of [msg]. *)
Lemma checkSum_absorbed (d : digest) (msg : list byte) :
  absorbed d msg -> checkSum d = Some (SHA256 msg).
Proof.
  intros Habs.
  assert (Hlen : len d = Z.of_nat (length msg) mod 2 ^ 64)
    by (destruct Habs as (? & ? & ? & ? & ? & ? & ? & ? & ? & ? & Hl);
        exact Hl).
  unfold checkSum.
  set (pad1 := if len d mod 64 <? 56 then _ else _).
  assert (Hd1 : (if len d mod 64 <? 56
                 then Write d (take (Z.to_nat (56 - len d mod 64))
                                    (x80 :: replicate 63 x00))
                 else Write d (take (Z.to_nat (64 + 56 - len d mod 64))
                                    (x80 :: replicate 63 x00))) =
                Write d ([x80] ++ replicate
                   (Z.to_nat ((55 - Z.of_nat (length msg)) mod 64)) x00)).
  { rewrite <- (padding_bytes (len d) _ Hlen).
    destruct (len d mod 64 <? 56); reflexivity. }
  subst pad1. rewrite Hd1. clear Hd1.
  assert (Hl8 : Z.shiftl (len d) 3 mod 2 ^ 64 =
                (8 * Z.of_nat (length msg)) mod 2 ^ 64).
  { rewrite Z.shiftl_mul_pow2, Hlen by lia.
    rewrite Z.mul_mod_idemp_l by lia. f_equal. lia. }
  rewrite Hl8. clear Hl8.
  pose proof (Write_absorbed _ _ (be_bytes 8
                ((8 * Z.of_nat (length msg)) mod 2 ^ 64))
                (Write_absorbed d msg ([x80] ++ replicate
                   (Z.to_nat ((55 - Z.of_nat (length msg)) mod 64)) x00)
                   Habs)) as Hd2.
  rewrite <- app_assoc in Hd2.
  change (absorbed (Write (Write d ([x80] ++ replicate
            (Z.to_nat ((55 - Z.of_nat (length msg)) mod 64)) x00))
            (be_bytes 8 ((8 * Z.of_nat (length msg)) mod 2 ^ 64)))
            (SHA256_pad msg)) in Hd2.
  destruct Hd2 as (done & rest & q & Hmsg & Hdone & Hrest & Hh & Hx & Hnx
                   & Htake & _).
  destruct (length_SHA256_pad msg) as [c Hc].
  assert (Hnil : rest = []).
  { rewrite Hmsg, length_app, Hdone in Hc. unfold chunk in *.
    destruct rest; [reflexivity | simpl in *; lia]. }
  rewrite Hnil in Hmsg, Hnx. rewrite app_nil_r in Hmsg.
  rewrite Hnx, Hh. unfold SHA256. rewrite Hmsg. reflexivity.
Qed.

(** Writing [a] and then [b] to a new digest and summing gives the SHA-256
    of [a ++ b], without panic. *)
Lemma Sum_Write_Write (a b : list byte) :
  Sum (Write (Write New a) b) [] = Some (SHA256 (a ++ b)).
Proof.
  unfold Sum.
  rewrite (checkSum_absorbed _ (a ++ b)); [reflexivity|].
  apply Write_absorbed. apply (Write_absorbed New [] a), absorbed_New.
Qed.
End sha256_facts.

(** ** [%x] writes lowercase hexadecimal *)

Lemma Sprintf_x_lowercase_hex (b : list byte) :
  Sprintf_x b = lowercase_hex b.
Proof.
  unfold lowercase_hex. induction b as [|c b IH]; [reflexivity|].
  simpl. rewrite <- IH. destruct c; reflexivity.
Qed.

Lemma length_Sprintf_x (b : list byte) :
  String.length (Sprintf_x b) = (2 * length b)%nat.
Proof. induction b as [|c b IH]; simpl; [reflexivity | rewrite IH; lia]. Qed.

(** ** The members of a serialized object *)

Lemma join_includes (sep : byte) (parts : list (list byte)) (p : list byte) :
  In p parts ->
  exists before after : list byte, join sep parts = before ++ p ++ after.
Proof.
  induction parts as [|p0 rest IH]; intros Hin; [destruct Hin|].
  destruct Hin as [->|Hin].
  - destruct rest as [|p1 rest'].
    + exists [], []. simpl. rewrite app_nil_r. reflexivity.
    + exists [], (sep :: join sep (p1 :: rest')). reflexivity.
  - destruct (IH Hin) as (before & after & Heq).
    destruct rest as [|p1 rest']; [destruct Hin|].
    exists (p0 ++ sep :: before), after.
    change (join sep (p0 :: p1 :: rest'))
      with (p0 ++ sep :: join sep (p1 :: rest')).
    rewrite Heq, <- app_assoc. reflexivity.
Qed.

(** Every field handed to [json_object] is a member of what it writes. *)
Lemma json_object_includes (fields : list (string * list byte))
    (name : string) (value : list byte) :
  In (name, value) fields -> includes (json_object fields) name value.
Proof.
  intros Hin. unfold includes, json_object.
  destruct (join_includes x2c
              (map (fun f => json_member (fst f) (snd f)) fields)
              (json_member name value)) as (before & after & Heq).
  - apply in_map_iff. exists (name, value). split; [reflexivity | exact Hin].
  - exists (x7b :: before), (after ++ [x7d]).
    rewrite Heq, <- !app_assoc. reflexivity.
Qed.

(** ** [Transaction.Reverse] on the receiver and on the result *)

Section ReverseShared.
Context `{Library Metadata}.

(** The result shares the cells of the receiver: after the call both
    show the same postings.  Where the length is even or 1 these are the
    reversal of what the receiver held before. *)
Lemma Transaction_Reverse_shared (t : Transaction Metadata) (m : memory) :
  backed m (t_Postings t) ->
  len (t_Postings t) = 1%nat \/
    len (t_Postings t) = (2 * (len (t_Postings t) / 2))%nat ->
  exists (r : Transaction Metadata) (m' : memory),
    Transaction_Reverse t m = Some (r, m') /\
    elems m' (t_Postings r) = reversed (elems m (t_Postings t)) /\
    elems m' (t_Postings t) = reversed (elems m (t_Postings t)).
Proof.
  intros Hb Hn.
  destruct (Postings_Reverse_reversed _ m Hb Hn) as (m' & Hrun & Hrev).
  eexists _, m'. rewrite (Transaction_Reverse_run t m m' Hrun).
  split; [reflexivity|]. split; exact Hrev.
Qed.
End ReverseShared.

(** On a slice of odd length 3 or more whose middle posting has distinct
    ends, what [Postings.Reverse] leaves is not the reversal. *)
Lemma Postings_Reverse_not_reversed (ps : Postings) (m : memory) (p : Posting) :
  backed m ps ->
  len ps <> 1%nat -> len ps = (2 * (len ps / 2) + 1)%nat ->
  elems m ps !! (len ps / 2)%nat = Some p ->
  Source p <> Destination p ->
  exists m' : memory,
    Postings_Reverse ps m = Some (tt, m') /\
    elems m' ps <> reversed (elems m ps).
Proof.
  intros Hb H1 Hodd Hp Hends.
  destruct (Postings_Reverse_middle ps m Hb H1 Hodd) as (m' & Hrun & Hmid).
  exists m'. split; [exact Hrun|]. intros Heq.
  rewrite Heq, Hp in Hmid.
  rewrite reversed_lookup in Hmid by (rewrite elems_length by exact Hb; lia).
  rewrite elems_length in Hmid by exact Hb.
  replace (len ps - 1 - len ps / 2)%nat with (len ps / 2)%nat in Hmid by lia.
  rewrite Hp in Hmid. simpl in Hmid. injection Hmid as Hsw.
  apply Hends. rewrite <- Hsw at 1. reflexivity.
Qed.

(** ** [Hash] in one formula *)

(** Whatever the two pointers, [Hash] does not panic and returns the
    lowercase hexadecimal SHA-256 of the bytes the two calls of
    [json.Marshal] left, one after the other; after a failed call these
    bytes are none. *)
Lemma Hash_run `{Library Metadata} (m : memory)
    (t1 t2 : option (Transaction Metadata)) :
  Hash m t1 t2 =
    Some (lowercase_hex (SHA256 (Marshal_bytes m t1 ++ Marshal_bytes m t2))).
Proof.
  unfold Hash.
  rewrite sha256_facts.Sum_Write_Write, Sprintf_x_lowercase_hex.
  reflexivity.
Qed.

(** Every serialization of a transaction has the five members. *)
Lemma json_Marshal_includes `{Library Metadata} (m : memory)
    (t : Transaction Metadata) (j : list byte) :
  json_Marshal m (Some t) = Some j -> includes_fields m t j.
Proof.
  intros Hj. simpl in Hj.
  destruct (json_Metadata (t_Metadata t)) as [meta|]; [|discriminate].
  injection Hj as <-. unfold includes_fields.
  repeat split; apply json_object_includes; simpl; auto 10.
Qed.

(** ** The model on known values *)

(** The test vectors of FIPS 180-4: the empty message, ["abc"], and the
    56-byte message that takes two blocks. *)
Example SHA256_empty :
  lowercase_hex (SHA256 []) =
    "e3b0c44298fc1c149afbf4c8996fb92427ae41e4649b934ca495991b7852b855"%string.
Proof. vm_compute. reflexivity. Qed.

Example SHA256_abc :
  lowercase_hex (SHA256 (bytes "abc")) =
    "ba7816bf8f01cfea414140de5dae2223b00361a396177a9cb410ff61f20015ad"%string.
Proof. vm_compute. reflexivity. Qed.

Example SHA256_two_blocks :
  lowercase_hex
    (SHA256 (bytes "abcdbcdecdefdefgefghfghighijhijkijkljklmklmnlmnomnopnopq")) =
    "248d6a61d20638b8e5c026930c3e6039a33ce45964ff2167f6ecedd419db06c1"%string.
Proof. vm_compute. reflexivity. Qed.

(** The zero-value transaction is written with every field present. *)
Example json_sentinel :
  json_Marshal [] (Some sentinel) =
    Some (x7b :: json_member "txid" (bytes "0") ++
          x2c :: json_member "postings" (bytes "null") ++
          x2c :: json_member "reference" [x22; x22] ++
          x2c :: json_member "timestamp" [x22; x22] ++
          x2c :: json_member "hash" [x22; x22] ++
          x2c :: json_member "metadata" (bytes "null") ++ [x7d]).
Proof. reflexivity. Qed.

(** The hash of the first transaction of [TestRevertTransaction] after the
    zero-value predecessor. *)
Example Hash_first :
  Hash mem1 (Some sentinel) (Some tx1) =
    Some "bb2e9907f70f52b818a99fd6ef691739e6eec326aca89c02dfa030612b367557"%string.
Proof. vm_compute. reflexivity. Qed.

(** * The specification against the code *)

(** C1.  [reverse(t)] should return the postings of [t] in reversed order
    with source and destination swapped in every posting, the middle one
    of an odd-length list included, under the reference prefixed by
    ["revert_"].  On the three postings of [tx3] the code returns, under
    the reference ["revert_ref"], the outer two exchanged and swapped but
    the middle posting [mint -> alice] with its ends as they were, which is
    not the reversal. *)
Theorem Reverse_three_postings_keeps_middle :
  exists (r : Transaction NilMetadata) (m' : memory),
    Transaction_Reverse tx3 mem3 = Some (r, m') /\
    t_Reference r = "revert_ref"%string /\
    elems m' (t_Postings r) =
      [ mkPosting "bob" "alice" 100 "GEM";
        mkPosting "mint" "alice" 100 "GEM";
        mkPosting "mint" "world" 100 "GEM" ] /\
    reversed (elems mem3 (t_Postings tx3)) =
      [ mkPosting "bob" "alice" 100 "GEM";
        mkPosting "alice" "mint" 100 "GEM";
        mkPosting "mint" "world" 100 "GEM" ] /\
    elems m' (t_Postings r) <> reversed (elems mem3 (t_Postings tx3)).
Proof.
  eexists _, _. split; [reflexivity|]. split; [reflexivity|].
  split; [reflexivity|]. split; [reflexivity|]. discriminate.
Qed.

(** C2.  [reverse(t)] should leave [t] unchanged.  On the transaction of
    [TestRevertTransaction] the postings read through [t] after the call
    are the reversed ones, the same cells the result shows: the call
    rewrote the backing array of [t.Postings]. *)
Theorem Reverse_rewrites_receiver_postings :
  exists (r : Transaction NilMetadata) (m' : memory),
    Transaction_Reverse tx1 mem1 = Some (r, m') /\
    elems mem1 (t_Postings tx1) =
      [ mkPosting "world" "payments:001" 100 "COIN" ] /\
    elems m' (t_Postings tx1) =
      [ mkPosting "payments:001" "world" 100 "COIN" ] /\
    elems m' (t_Postings tx1) = elems m' (t_Postings r) /\
    elems m' (t_Postings tx1) <> elems mem1 (t_Postings tx1).
Proof.
  eexists _, _. split; [reflexivity|]. split; [reflexivity|].
  split; [reflexivity|]. split; [reflexivity|]. discriminate.
Qed.

(** C3.  For every pair of transactions with JSON serializations [j_prev]
    and [j_curr], [Hash] returns, without panic, the lowercase hexadecimal
    encoding of the SHA-256 of [j_prev] followed by [j_curr]; and each
    serialization includes the id, postings, reference, timestamp and hash
    of its transaction. *)
Theorem Hash_hex_SHA256_of_JSON `{Library Metadata} (m : memory)
    (t_prev t_curr : Transaction Metadata) (j_prev j_curr : list byte) :
  json_Marshal m (Some t_prev) = Some j_prev ->
  json_Marshal m (Some t_curr) = Some j_curr ->
  Hash m (Some t_prev) (Some t_curr) =
    Some (lowercase_hex (SHA256 (j_prev ++ j_curr))) /\
  includes_fields m t_prev j_prev /\
  includes_fields m t_curr j_curr.
Proof.
  intros Hprev Hcurr. split.
  - rewrite Hash_run. unfold Marshal_bytes. rewrite Hprev, Hcurr.
    reflexivity.
  - split; apply json_Marshal_includes; assumption.
Qed.

Lemma Hash_hex_SHA256_of_JSON_witness :
  json_Marshal mem1 (Some sentinel) =
    Some (Marshal_bytes mem1 (Some sentinel)) /\
  json_Marshal mem1 (Some tx1) = Some (Marshal_bytes mem1 (Some tx1)) /\
  (Hash mem1 (Some sentinel) (Some tx1) =
     Some (lowercase_hex (SHA256 (Marshal_bytes mem1 (Some sentinel) ++
                                  Marshal_bytes mem1 (Some tx1)))) /\
   includes_fields mem1 sentinel (Marshal_bytes mem1 (Some sentinel)) /\
   includes_fields mem1 tx1 (Marshal_bytes mem1 (Some tx1))).
Proof.
  split; [reflexivity|]. split; [reflexivity|].
  apply (Hash_hex_SHA256_of_JSON mem1 sentinel tx1); reflexivity.
Defined.

(** * Further properties of the code *)

(** ** [Postings.Reverse] *)

Lemma swap_swap (p : Posting) : swap (swap p) = p.
Proof. destruct p; reflexivity. Qed.

Lemma rev_map_lookup {B : Type} (f : Posting -> B) (l : list Posting)
    (i : nat) :
  (i < length l)%nat ->
  rev (map f l) !! i = f <$> l !! (length l - 1 - i)%nat.
Proof.
  intros Hi. rewrite rev_alt.
  change (rev_append (map f l) []) with (reverse (f <$> l)).
  rewrite reverse_lookup by (rewrite length_fmap; exact Hi).
  rewrite length_fmap, list_lookup_fmap. f_equal. f_equal. lia.
Qed.

Lemma backed_same_length (m m' : memory) (ps : Postings) :
  length m' = length m -> backed m ps -> backed m' ps.
Proof. unfold backed. destruct (data ps); congruence. Qed.

(** Whatever [f] reads of a posting that a swap of its ends does not
    change comes out of [Postings.Reverse] in reversed order, at every
    length. *)
Lemma Postings_Reverse_keeps {B : Type} (f : Posting -> B) (ps : Postings)
    (m : memory) :
  (forall p : Posting, f (swap p) = f p) ->
  backed m ps ->
  exists m' : memory,
    Postings_Reverse ps m = Some (tt, m') /\
    map f (elems m' ps) = rev (map f (elems m ps)).
Proof.
  intros Hf Hb.
  destruct (Postings_Reverse_cells ps m Hb)
    as (m' & Hrun & Hlen & Hout & Hnil & Hin).
  exists m'. split; [exact Hrun|].
  pose proof (backed_same_length m m' ps Hlen Hb) as Hb'.
  apply list_eq. intros i.
  destruct (decide (i < len ps)%nat) as [Hi|Hi].
  - rewrite rev_map_lookup by (rewrite elems_length by exact Hb; exact Hi).
    rewrite (elems_length m ps Hb).
    change (map f (elems m' ps)) with (f <$> elems m' ps).
    rewrite list_lookup_fmap, Hin by exact Hi.
    case_decide as Hs.
    + destruct Hs as (_ & Hodd & ->). f_equal. f_equal. lia.
    + destruct (elems m ps !! (len ps - 1 - i)%nat) as [q|]; simpl;
        [rewrite Hf|]; reflexivity.
  - rewrite !lookup_ge_None_2; [reflexivity | |].
    + rewrite length_rev, length_map, elems_length by exact Hb. lia.
    + rewrite length_map, elems_length by exact Hb'. lia.
Qed.

(** X1.  [Postings.Reverse] does not panic on a backed slice, keeps the size of
    the memory, and every slice whose cells lie apart from the reversed ones
    reads as before. *)
Theorem Reverse_leaves_other_slices (ps qs : Postings) (m : memory) :
  backed m ps -> apart ps qs ->
  exists m' : memory,
    Postings_Reverse ps m = Some (tt, m') /\
    length m' = length m /\
    elems m' qs = elems m qs.
Proof.
  intros Hb Hapart.
  destruct (Postings_Reverse_cells ps m Hb)
    as (m' & Hrun & Hlen & Hout & Hnil & _).
  exists m'. split; [exact Hrun|]. split; [exact Hlen|].
  unfold apart in Hapart.
  destruct (data ps) as [a|] eqn:Hps; [|rewrite Hnil; reflexivity].
  unfold elems. destruct (data qs) as [b|] eqn:Hqs; [|reflexivity].
  apply list_eq. intros i.
  destruct (decide (i < len qs)%nat) as [Hi|Hi].
  - rewrite !lookup_take_lt, !lookup_drop by exact Hi.
    apply (Hout a); [reflexivity | lia].
  - rewrite !lookup_take_ge by lia. reflexivity.
Qed.

Lemma Reverse_leaves_other_slices_witness :
  backed mem3 ps_pair /\ apart ps_pair ps_last /\
  exists m' : memory,
    Postings_Reverse ps_pair mem3 = Some (tt, m') /\
    length m' = length mem3 /\
    elems m' ps_last = elems mem3 ps_last.
Proof.
  split; [cbv; lia|]. split; [cbv; lia|].
  apply (Reverse_leaves_other_slices ps_pair ps_last mem3); cbv; lia.
Defined.

(** X2.  On a slice of even length, or of length 1, [Postings.Reverse] leaves
    the postings in reversed order, each with source and destination
    swapped. *)
Theorem Reverse_even_or_single (ps : Postings) (m : memory) :
  backed m ps ->
  len ps = 1%nat \/ len ps = (2 * (len ps / 2))%nat ->
  exists m' : memory,
    Postings_Reverse ps m = Some (tt, m') /\
    elems m' ps = rev (map swap (elems m ps)).
Proof. apply Postings_Reverse_reversed. Qed.

Lemma Reverse_even_or_single_witness :
  backed mem3 ps_pair /\
  (len ps_pair = 1%nat \/ len ps_pair = (2 * (len ps_pair / 2))%nat) /\
  exists m' : memory,
    Postings_Reverse ps_pair mem3 = Some (tt, m') /\
    elems m' ps_pair = rev (map swap (elems mem3 ps_pair)).
Proof.
  split; [cbv; lia|]. split; [right; reflexivity|].
  apply (Reverse_even_or_single ps_pair mem3); [cbv; lia | right; reflexivity].
Defined.

(** X3.  On a slice of odd length 3 or more, [Postings.Reverse] leaves the
    middle posting as it was, source and destination included, and in every
    other cell the swapped posting of the mirror cell. *)
Theorem Reverse_odd_keeps_middle (ps : Postings) (m : memory) (k : nat) :
  backed m ps ->
  (1 <= k)%nat -> len ps = (2 * k + 1)%nat ->
  exists m' : memory,
    Postings_Reverse ps m = Some (tt, m') /\
    elems m' ps !! k = elems m ps !! k /\
    forall i : nat, (i < len ps)%nat -> i <> k ->
      elems m' ps !! i = swap <$> elems m ps !! (len ps - 1 - i)%nat.
Proof.
  intros Hb Hk Hlen.
  assert (Hdiv : (len ps / 2)%nat = k).
  { rewrite Hlen. symmetry.
    apply (Nat.div_unique (2 * k + 1) 2 k 1); lia. }
  destruct (Postings_Reverse_cells ps m Hb)
    as (m' & Hrun & _ & _ & _ & Hin).
  exists m'. split; [exact Hrun|]. split.
  - rewrite Hin by lia. case_decide as Hs; [reflexivity|].
    exfalso. apply Hs. unfold skipped. rewrite Hdiv. lia.
  - intros i Hi Hne. rewrite Hin by exact Hi.
    case_decide as Hs; [|reflexivity].
    exfalso. destruct Hs as (_ & _ & Hmid). rewrite Hdiv in Hmid. lia.
Qed.

Lemma Reverse_odd_keeps_middle_witness :
  backed mem3 ps_all /\ (1 <= 1)%nat /\ len ps_all = (2 * 1 + 1)%nat /\
  exists m' : memory,
    Postings_Reverse ps_all mem3 = Some (tt, m') /\
    elems m' ps_all !! 1%nat = elems mem3 ps_all !! 1%nat /\
    forall i : nat, (i < len ps_all)%nat -> i <> 1%nat ->
      elems m' ps_all !! i =
        swap <$> elems mem3 ps_all !! (len ps_all - 1 - i)%nat.
Proof.
  split; [cbv; lia|]. split; [lia|]. split; [reflexivity|].
  apply (Reverse_odd_keeps_middle ps_all mem3 1);
    [cbv; lia | lia | reflexivity].
Defined.

(** X4.  At every length, the amounts and assets come out of [Postings.Reverse]
    in reversed order: no amount or asset is changed, lost or repeated. *)
Theorem Reverse_keeps_amounts_and_assets (ps : Postings) (m : memory) :
  backed m ps ->
  exists m' : memory,
    Postings_Reverse ps m = Some (tt, m') /\
    map (fun p => (Amount p, Asset p)) (elems m' ps) =
      rev (map (fun p => (Amount p, Asset p)) (elems m ps)).
Proof.
  intros Hb. apply Postings_Reverse_keeps; [reflexivity | exact Hb].
Qed.

Lemma Reverse_keeps_amounts_and_assets_witness :
  backed mem3 ps_all /\
  exists m' : memory,
    Postings_Reverse ps_all mem3 = Some (tt, m') /\
    map (fun p => (Amount p, Asset p)) (elems m' ps_all) =
      rev (map (fun p => (Amount p, Asset p)) (elems mem3 ps_all)).
Proof.
  split; [cbv; lia|].
  apply (Reverse_keeps_amounts_and_assets ps_all mem3). cbv; lia.
Defined.

Lemma Postings_Reverse_twice (ps : Postings) (m : memory) :
  backed m ps ->
  exists m1 : memory,
    Postings_Reverse ps m = Some (tt, m1) /\
    Postings_Reverse ps m1 = Some (tt, m).
Proof.
  intros Hb.
  destruct (Postings_Reverse_cells ps m Hb)
    as (m1 & Hrun1 & Hlen1 & Hout1 & Hnil1 & Hin1).
  pose proof (backed_same_length m m1 ps Hlen1 Hb) as Hb1.
  destruct (Postings_Reverse_cells ps m1 Hb1)
    as (m2 & Hrun2 & Hlen2 & Hout2 & Hnil2 & Hin2).
  exists m1. split; [exact Hrun1|]. rewrite Hrun2. f_equal. f_equal.
  destruct (data ps) as [a|] eqn:Hdata;
    [|rewrite Hnil2, Hnil1; reflexivity].
  apply list_eq. intros j.
  destruct (decide (j < a \/ a + len ps <= j)%nat) as [Hj|Hj].
  - rewrite (Hout2 a j), (Hout1 a j); auto.
  - assert (Hi : (j - a < len ps)%nat) by lia.
    replace j with (a + (j - a))%nat by lia.
    set (i := (j - a)%nat) in *.
    rewrite <- !(elems_lookup _ ps a i Hdata Hi).
    rewrite Hin2 by exact Hi. case_decide as Hs.
    + rewrite Hin1 by exact Hi. case_decide; [reflexivity | contradiction].
    + rewrite Hin1 by lia. case_decide as Hs'.
      * exfalso. apply Hs. unfold skipped in *. lia.
      * replace (len ps - 1 - (len ps - 1 - i))%nat with i by lia.
        destruct (elems m ps !! i) as [q|]; simpl;
          [rewrite swap_swap|]; reflexivity.
Qed.

(** X5.  [Postings.Reverse] undoes itself: a second call on the same slice puts
    the memory back as it was, at every length. *)
Theorem Reverse_twice (ps : Postings) (m : memory) :
  backed m ps ->
  exists m1 : memory,
    Postings_Reverse ps m = Some (tt, m1) /\
    Postings_Reverse ps m1 = Some (tt, m).
Proof. apply Postings_Reverse_twice. Qed.

Lemma Reverse_twice_witness :
  backed mem3 ps_all /\
  exists m1 : memory,
    Postings_Reverse ps_all mem3 = Some (tt, m1) /\
    Postings_Reverse ps_all m1 = Some (tt, mem3).
Proof.
  split; [cbv; lia|]. apply (Reverse_twice ps_all mem3). cbv; lia.
Defined.

(** ** [Transaction.Reverse] *)

(** X6.  [Transaction.Reverse] does not panic on backed postings.  Its result
    takes nothing of the receiver but the slice header and the reference:
    the id is 0, timestamp and hash are empty, the metadata is nil, and the
    reference is ["revert_"] followed by the receiver's, so it is not empty
    even when the receiver has none. *)
Theorem Reverse_result_fields `{Library Metadata} (t : Transaction Metadata)
    (m : memory) :
  backed m (t_Postings t) ->
  exists (r : Transaction Metadata) (m' : memory),
    Transaction_Reverse t m = Some (r, m') /\
    t_Postings r = t_Postings t /\
    t_ID r = 0 /\ t_Timestamp r = EmptyString /\ t_Hash r = EmptyString /\
    t_Metadata r = nil_Metadata /\
    t_Reference r = ("revert_" ++ t_Reference t)%string /\
    t_Reference r <> EmptyString.
Proof.
  intros Hb.
  destruct (Postings_Reverse_cells _ m Hb) as (m' & Hrun & _).
  eexists _, m'. rewrite (Transaction_Reverse_run t m m' Hrun).
  repeat (split; [reflexivity|]). discriminate.
Qed.

Lemma Reverse_result_fields_witness :
  backed mem1 (t_Postings tx1) /\
  exists (r : Transaction NilMetadata) (m' : memory),
    Transaction_Reverse tx1 mem1 = Some (r, m') /\
    t_Postings r = t_Postings tx1 /\
    t_ID r = 0 /\ t_Timestamp r = EmptyString /\ t_Hash r = EmptyString /\
    t_Metadata r = nil_Metadata /\
    t_Reference r = ("revert_" ++ t_Reference tx1)%string /\
    t_Reference r <> EmptyString.
Proof.
  split; [cbv; lia|]. apply (Reverse_result_fields tx1 mem1). cbv; lia.
Defined.

(** X7.  Reversing the reverse puts every posting back as it was in the memory
    and, the cells being shared, in the receiver; the reference has the
    prefix twice. *)
Theorem Reverse_of_reverse `{Library Metadata} (t : Transaction Metadata)
    (m : memory) :
  backed m (t_Postings t) ->
  exists (r : Transaction Metadata) (m1 : memory)
         (r2 : Transaction Metadata),
    Transaction_Reverse t m = Some (r, m1) /\
    Transaction_Reverse r m1 = Some (r2, m) /\
    elems m (t_Postings r2) = elems m (t_Postings t) /\
    t_Reference r2 = ("revert_revert_" ++ t_Reference t)%string.
Proof.
  intros Hb.
  destruct (Postings_Reverse_twice (t_Postings t) m Hb)
    as (m1 & Hrun1 & Hrun2).
  set (r := mkTransaction 0 (t_Postings t)
              ("revert_" ++ t_Reference t)%string EmptyString EmptyString
              nil_Metadata).
  exists r, m1. eexists.
  split; [exact (Transaction_Reverse_run t m m1 Hrun1)|].
  split; [exact (Transaction_Reverse_run r m1 m Hrun2)|].
  split; reflexivity.
Qed.

Lemma Reverse_of_reverse_witness :
  backed mem3 (t_Postings tx3) /\
  exists (r : Transaction NilMetadata) (m1 : memory)
         (r2 : Transaction NilMetadata),
    Transaction_Reverse tx3 mem3 = Some (r, m1) /\
    Transaction_Reverse r m1 = Some (r2, mem3) /\
    elems mem3 (t_Postings r2) = elems mem3 (t_Postings tx3) /\
    t_Reference r2 = ("revert_revert_" ++ t_Reference tx3)%string.
Proof.
  split; [cbv; lia|]. apply (Reverse_of_reverse tx3 mem3). cbv; lia.
Defined.

(** ** [Transaction.AppendPosting] *)

Lemma well_formed_backed (m : memory) (ps : Postings) :
  well_formed m ps -> backed m ps.
Proof.
  unfold well_formed, backed. destruct (data ps); intros [Hle Hcap]; lia.
Qed.

Section Append.
Context `{Runtime}.

(** With spare capacity [append] stores into the cell after the last. *)
Lemma append_spare (ps : Postings) (a : nat) (p : Posting) (m : memory) :
  data ps = Some a -> (len ps < cap ps)%nat ->
  (a + cap ps <= length m)%nat ->
  append ps p m =
    Some (mkPostings (Some a) (S (len ps)) (cap ps),
          <[(a + len ps)%nat := p]> m).
Proof.
  intros Hdata Hlt Hcap. unfold append. rewrite Hdata.
  destruct (Nat.ltb_spec (len ps) (cap ps)); [|lia].
  destruct (decide _); [reflexivity | lia].
Qed.

(** Without spare capacity [append] fills a new array past the memory. *)
Lemma append_full (ps : Postings) (p : Posting) (m : memory) :
  (cap ps <= len ps)%nat ->
  append ps p m =
    Some (mkPostings (Some (length m)) (S (len ps))
            (growslice_cap (cap ps) (S (len ps))),
          m ++ elems m ps ++
            p :: replicate (growslice_cap (cap ps) (S (len ps)) - S (len ps))
                   zero_Posting).
Proof.
  intros Hge. unfold append.
  destruct (Nat.ltb_spec (len ps) (cap ps)); [lia | reflexivity].
Qed.

(** [append] does not panic on a well-formed header and returns a
    well-formed one that reads the old postings followed by [p]. *)
Lemma append_elems (ps : Postings) (p : Posting) (m : memory) :
  well_formed m ps ->
  exists (ps' : Postings) (m' : memory),
    append ps p m = Some (ps', m') /\
    elems m' ps' = elems m ps ++ [p] /\
    well_formed m' ps'.
Proof.
  intros Hwf. pose proof (well_formed_backed m ps Hwf) as Hb.
  destruct Hwf as [Hle Hcap].
  destruct (decide (len ps < cap ps)%nat) as [Hlt|Hge].
  - destruct (data ps) as [a|] eqn:Hdata; [|lia].
    eexists _, _. split; [apply (append_spare ps a); assumption|].
    split.
    + unfold elems. rewrite Hdata. simpl.
      rewrite drop_insert_ge by lia.
      replace (a + len ps - a)%nat with (len ps) by lia.
      rewrite (take_S_r _ _ p)
        by (apply list_lookup_insert_eq; rewrite length_drop; lia).
      rewrite take_insert_ge by lia. reflexivity.
    + unfold well_formed. simpl. rewrite length_insert. lia.
  - eexists _, _. split; [apply append_full; lia|].
    pose proof (growslice_enough (cap ps) (S (len ps))) as Hc.
    pose proof (elems_length m ps Hb) as Hlen.
    split.
    + unfold elems at 1. simpl. rewrite drop_app_length.
      rewrite cons_middle, app_assoc.
      rewrite take_app_le by (rewrite length_app; simpl; lia).
      apply take_ge. rewrite length_app. simpl. lia.
    + unfold well_formed. simpl.
      rewrite !length_app, Hlen. simpl. rewrite length_replicate. lia.
Qed.
End Append.

Section AppendPosting.
Context `{Runtime} {Metadata : Type}.

Lemma AppendPosting_run (t : Transaction Metadata) (p : Posting)
    (m m' : memory) (ps' : Postings) :
  append (t_Postings t) p m = Some (ps', m') ->
  Transaction_AppendPosting t p m =
    Some (mkTransaction (t_ID t) ps' (t_Reference t) (t_Timestamp t)
            (t_Hash t) (t_Metadata t), m').
Proof.
  intros Hrun. unfold Transaction_AppendPosting, bind. rewrite Hrun.
  reflexivity.
Qed.

(** X8.  [AppendPosting] does not panic on a well-formed transaction; after it
    the postings are the old ones followed by [p], the header is still
    well formed, and no other field has changed. *)
Theorem AppendPosting_appends (t : Transaction Metadata) (p : Posting)
    (m : memory) :
  well_formed m (t_Postings t) ->
  exists (t' : Transaction Metadata) (m' : memory),
    Transaction_AppendPosting t p m = Some (t', m') /\
    elems m' (t_Postings t') = elems m (t_Postings t) ++ [p] /\
    well_formed m' (t_Postings t') /\
    t_ID t' = t_ID t /\ t_Reference t' = t_Reference t /\
    t_Timestamp t' = t_Timestamp t /\ t_Hash t' = t_Hash t /\
    t_Metadata t' = t_Metadata t.
Proof.
  intros Hwf.
  destruct (append_elems (t_Postings t) p m Hwf)
    as (ps' & m' & Hrun & Helems & Hwf').
  eexists _, m'. split; [exact (AppendPosting_run t p m m' ps' Hrun)|].
  simpl. split; [exact Helems|]. split; [exact Hwf'|].
  repeat split; reflexivity.
Qed.

(** X9.  When the capacity is used up, [AppendPosting] moves the postings to a
    new array: every slice backed by the memory before the call, the old
    header of the receiver among them, reads after it as before. *)
Theorem AppendPosting_full_keeps_slices (t : Transaction Metadata)
    (p : Posting) (m : memory) (qs : Postings) :
  (cap (t_Postings t) <= len (t_Postings t))%nat ->
  backed m qs ->
  exists (t' : Transaction Metadata) (m' : memory),
    Transaction_AppendPosting t p m = Some (t', m') /\
    data (t_Postings t') = Some (length m) /\
    elems m' qs = elems m qs.
Proof.
  intros Hfull Hqs.
  eexists _, _.
  split; [exact (AppendPosting_run t p m _ _
                   (append_full (t_Postings t) p m Hfull))|].
  split; [reflexivity|].
  unfold elems, backed in *. destruct (data qs) as [b|]; [|reflexivity].
  rewrite drop_app_le by lia.
  apply take_app_le. rewrite length_drop. lia.
Qed.

(** X10.  With spare capacity, [AppendPosting] stores into the backing array it
    shares: a longer slice over the same array has its posting at the
    receiver's old length overwritten by [p]. *)
Theorem AppendPosting_spare_overwrites (t : Transaction Metadata)
    (p : Posting) (m : memory) (a : nat) (qs : Postings) :
  well_formed m (t_Postings t) ->
  data (t_Postings t) = Some a ->
  (len (t_Postings t) < cap (t_Postings t))%nat ->
  data qs = Some a -> (len (t_Postings t) < len qs)%nat ->
  exists (t' : Transaction Metadata) (m' : memory),
    Transaction_AppendPosting t p m = Some (t', m') /\
    data (t_Postings t') = Some a /\
    length m' = length m /\
    elems m' qs = <[len (t_Postings t) := p]> (elems m qs).
Proof.
  intros [Hle Hcap] Hdata Hlt Hqdata Hqlen. rewrite Hdata in Hcap.
  eexists _, _.
  split; [exact (AppendPosting_run t p m _ _
                   (append_spare (t_Postings t) a p m Hdata Hlt Hcap))|].
  split; [reflexivity|]. split; [apply length_insert|].
  unfold elems. rewrite Hqdata.
  rewrite drop_insert_ge by lia.
  replace (a + len (t_Postings t) - a)%nat with (len (t_Postings t)) by lia.
  apply take_insert_lt. exact Hqlen.
Qed.

Lemma AppendPosting_each_run (l : list Posting) :
  forall (t : Transaction Metadata) (m : memory),
    well_formed m (t_Postings t) ->
    exists (t' : Transaction Metadata) (m' : memory),
      AppendPosting_each t l m = Some (t', m') /\
      elems m' (t_Postings t') = elems m (t_Postings t) ++ l /\
      well_formed m' (t_Postings t').
Proof.
  induction l as [|p l IH]; intros t m Hwf.
  - exists t, m. split; [reflexivity|].
    split; [rewrite app_nil_r; reflexivity | exact Hwf].
  - destruct (append_elems (t_Postings t) p m Hwf)
      as (ps' & m1 & Hrun & Helems & Hwf1).
    pose proof (AppendPosting_run t p m m1 ps' Hrun) as Hstep.
    set (t1 := mkTransaction (t_ID t) ps' (t_Reference t) (t_Timestamp t)
                 (t_Hash t) (t_Metadata t)) in Hstep.
    destruct (IH t1 m1 Hwf1) as (t' & m' & Hrest & Helems' & Hwf').
    exists t', m'. split.
    + simpl. unfold bind at 1. rewrite Hstep. exact Hrest.
    + split; [|exact Hwf'].
      rewrite Helems'. simpl. rewrite Helems, <- app_assoc. reflexivity.
Qed.

(** X11.  Calls of [AppendPosting] in a row, one for each posting of [l], do not
    panic and leave the old postings followed by [l], in order. *)
Theorem AppendPosting_each_appends (l : list Posting)
    (t : Transaction Metadata) (m : memory) :
  well_formed m (t_Postings t) ->
  exists (t' : Transaction Metadata) (m' : memory),
    AppendPosting_each t l m = Some (t', m') /\
    elems m' (t_Postings t') = elems m (t_Postings t) ++ l /\
    well_formed m' (t_Postings t').
Proof. apply AppendPosting_each_run. Qed.

(** X12.  A transaction without postings to which the postings of [l] are
    appended and which is then reversed gives, when [l] has even length or
    length 1, the postings of [l] in reversed order with source and
    destination swapped. *)
Theorem AppendPosting_each_then_Reverse `{Library Metadata}
    (l : list Posting) (t : Transaction Metadata) (m : memory) :
  well_formed m (t_Postings t) ->
  len (t_Postings t) = 0%nat ->
  length l = 1%nat \/ length l = (2 * (length l / 2))%nat ->
  exists (t' : Transaction Metadata) (m1 : memory)
         (r : Transaction Metadata) (m2 : memory),
    AppendPosting_each t l m = Some (t', m1) /\
    Transaction_Reverse t' m1 = Some (r, m2) /\
    elems m2 (t_Postings r) = rev (map swap l).
Proof.
  intros Hwf Hempty Hlen.
  destruct (AppendPosting_each_run l t m Hwf)
    as (t' & m1 & Hrun & Helems & Hwf').
  pose proof (well_formed_backed _ _ Hwf') as Hb'.
  assert (Hnil : elems m (t_Postings t) = []).
  { apply length_zero_iff_nil.
    rewrite elems_length by (apply well_formed_backed; exact Hwf).
    exact Hempty. }
  rewrite Hnil in Helems. simpl in Helems.
  assert (Hl : len (t_Postings t') = length l)
    by (rewrite <- (elems_length m1 _ Hb'), Helems; reflexivity).
  destruct (Postings_Reverse_reversed (t_Postings t') m1 Hb')
    as (m2 & Hrev & Hres); [rewrite Hl; exact Hlen|].
  eexists t', m1, _, m2. split; [exact Hrun|].
  split; [exact (Transaction_Reverse_run t' m1 m2 Hrev)|].
  simpl. rewrite Hres, Helems. reflexivity.
Qed.
End AppendPosting.

Lemma AppendPosting_appends_witness :
  well_formed mem3 (t_Postings tx3) /\
  exists (t' : Transaction NilMetadata) (m' : memory),
    Transaction_AppendPosting tx3 p_new mem3 = Some (t', m') /\
    elems m' (t_Postings t') = elems mem3 (t_Postings tx3) ++ [p_new] /\
    well_formed m' (t_Postings t') /\
    t_ID t' = t_ID tx3 /\ t_Reference t' = t_Reference tx3 /\
    t_Timestamp t' = t_Timestamp tx3 /\ t_Hash t' = t_Hash tx3 /\
    t_Metadata t' = t_Metadata tx3.
Proof.
  split; [cbv; lia|]. apply (AppendPosting_appends tx3 p_new mem3). cbv; lia.
Defined.

Lemma AppendPosting_full_keeps_slices_witness :
  (cap (t_Postings tx3) <= len (t_Postings tx3))%nat /\
  backed mem3 ps_last /\
  exists (t' : Transaction NilMetadata) (m' : memory),
    Transaction_AppendPosting tx3 p_new mem3 = Some (t', m') /\
    data (t_Postings t') = Some (length mem3) /\
    elems m' ps_last = elems mem3 ps_last.
Proof.
  split; [cbv; lia|]. split; [cbv; lia|].
  apply (AppendPosting_full_keeps_slices tx3 p_new mem3 ps_last); cbv; lia.
Defined.

Lemma AppendPosting_spare_overwrites_witness :
  well_formed mem3 (t_Postings tx_pair) /\
  data (t_Postings tx_pair) = Some 0%nat /\
  (len (t_Postings tx_pair) < cap (t_Postings tx_pair))%nat /\
  data ps_all = Some 0%nat /\ (len (t_Postings tx_pair) < len ps_all)%nat /\
  exists (t' : Transaction NilMetadata) (m' : memory),
    Transaction_AppendPosting tx_pair p_new mem3 = Some (t', m') /\
    data (t_Postings t') = Some 0%nat /\
    length m' = length mem3 /\
    elems m' ps_all = <[len (t_Postings tx_pair) := p_new]> (elems mem3 ps_all).
Proof.
  split; [cbv; lia|]. split; [reflexivity|]. split; [cbv; lia|].
  split; [reflexivity|]. split; [cbv; lia|].
  apply (AppendPosting_spare_overwrites tx_pair p_new mem3 0 ps_all);
    try reflexivity; cbv; lia.
Defined.

Lemma AppendPosting_each_appends_witness :
  well_formed [] (t_Postings sentinel) /\
  exists (t' : Transaction NilMetadata) (m' : memory),
    AppendPosting_each sentinel mem3 [] = Some (t', m') /\
    elems m' (t_Postings t') = elems [] (t_Postings sentinel) ++ mem3 /\
    well_formed m' (t_Postings t').
Proof.
  split; [cbv; lia|].
  apply (AppendPosting_each_appends mem3 sentinel []). cbv; lia.
Defined.

(** ** [Hash] *)

Lemma length_block_chunks (n : nat) :
  forall (hs : list Z) (p : list byte),
    length hs = 8%nat -> length (sha256.block_chunks n hs p) = 8%nat.
Proof.
  induction n as [|n IH]; intros hs p Hhs; [exact Hhs|].
  simpl. apply IH. reflexivity.
Qed.

Lemma length_SHA256 (msg : list byte) : length (SHA256 msg) = 32%nat.
Proof.
  unfold SHA256, sha256.block.
  pose proof (length_block_chunks
                (length (SHA256_pad msg) / sha256.chunk) sha256.init
                (SHA256_pad msg) eq_refl) as Hlen.
  destruct (sha256.block_chunks _ _ _) as [|h0 [|h1 [|h2 [|h3 [|h4 [|h5
    [|h6 [|h7 [|h8 hs]]]]]]]]]; try discriminate Hlen.
  reflexivity.
Qed.

Lemma lowercase_hex_digits (b : list byte) :
  forallb lowercase_hex_digit (list_ascii_of_string (lowercase_hex b)) = true.
Proof.
  unfold lowercase_hex. rewrite list_ascii_of_string_of_list_ascii.
  induction b as [|c b IH]; [reflexivity|].
  simpl. rewrite IH. destruct c; reflexivity.
Qed.

Lemma length_lowercase_hex (b : list byte) :
  String.length (lowercase_hex b) = (2 * length b)%nat.
Proof. rewrite <- Sprintf_x_lowercase_hex. apply length_Sprintf_x. Qed.

(** X13.  Whatever its arguments, nil pointers and transactions that cannot be
    serialized included, [Hash] does not panic and returns 64 characters,
    each among [0] to [9] and [a] to [f]. *)
Theorem Hash_is_64_hex_digits `{Library Metadata} (m : memory)
    (t1 t2 : option (Transaction Metadata)) :
  exists s : string,
    Hash m t1 t2 = Some s /\
    String.length s = 64%nat /\
    forallb lowercase_hex_digit (list_ascii_of_string s) = true.
Proof.
  eexists. split; [apply Hash_run|]. split.
  - rewrite length_lowercase_hex, length_SHA256. reflexivity.
  - apply lowercase_hex_digits.
Qed.

(** X14.  [Hash] drops the error of [json.Marshal]: when the first transaction
    cannot be serialized, the result is the hash of the serialization of the
    second alone, whatever the first holds. *)
Theorem Hash_drops_Marshal_error `{Library Metadata} (m : memory)
    (t1 t2 : Transaction Metadata) (j2 : list byte) :
  json_Marshal m (Some t1) = None ->
  json_Marshal m (Some t2) = Some j2 ->
  Hash m (Some t1) (Some t2) = Some (lowercase_hex (SHA256 j2)).
Proof.
  intros H1 H2. rewrite Hash_run. unfold Marshal_bytes. rewrite H1, H2.
  reflexivity.
Qed.

Lemma Hash_drops_Marshal_error_witness :
  json_Marshal [] (Some tx_invalid) = None /\
  json_Marshal [] (Some tx_valid) = Some (Marshal_bytes [] (Some tx_valid)) /\
  Hash [] (Some tx_invalid) (Some tx_valid) =
    Some (lowercase_hex (SHA256 (Marshal_bytes [] (Some tx_valid)))).
Proof.
  split; [reflexivity|]. split; [reflexivity|].
  apply (Hash_drops_Marshal_error [] tx_invalid tx_valid); reflexivity.
Defined.

(** ** The digest under any number of writes *)

Lemma absorbed_writes (ws : list (list byte)) :
  forall (d : sha256.digest) (msg : list byte),
    absorbed d msg ->
    absorbed (fold_left sha256.Write ws d) (msg ++ concat ws).
Proof.
  induction ws as [|w ws IH]; intros d msg Habs.
  - simpl. rewrite app_nil_r. exact Habs.
  - simpl. rewrite app_assoc. apply IH.
    apply sha256_facts.Write_absorbed. exact Habs.
Qed.

(** X15.  However a message is cut into pieces for [Write], [Sum] on the new
    digest they were written to does not panic and appends to its argument
    the SHA-256 of the whole message. *)
Theorem Sum_of_writes (ws : list (list byte)) (b : list byte) :
  sha256.Sum (fold_left sha256.Write ws sha256.New) b =
    Some (b ++ SHA256 (concat ws)).
Proof.
  unfold sha256.Sum.
  rewrite (sha256_facts.checkSum_absorbed _ (concat ws)); [reflexivity|].
  apply (absorbed_writes ws sha256.New []), sha256_facts.absorbed_New.
Qed.

(** ** What a serialization tells *)

Lemma bytes_inj (s1 s2 : string) : bytes s1 = bytes s2 -> s1 = s2.
Proof.
  unfold bytes. intros Heq.
  rewrite <- (string_of_list_byte_of_string s1),
          <- (string_of_list_byte_of_string s2), Heq.
  reflexivity.
Qed.

Lemma json_int_inj (z1 z2 : Z) : json_int z1 = json_int z2 -> z1 = z2.
Proof.
  unfold json_int. intros Heq. apply bytes_inj in Heq.
  assert (Hsome : forall z : Z,
             NilZero.int_of_string (NilZero.string_of_int (Z.to_int z)) =
               Some (Z.to_int z)).
  { intros z. apply NilZero.isi; destruct z as [|q|q]; simpl;
      try discriminate; intros [= Hq];
      exact (DecimalPos.Unsigned.to_uint_nonnil q Hq). }
  pose proof (Hsome z1) as H1. rewrite Heq, Hsome in H1.
  injection H1 as H1.
  rewrite <- (DecimalZ.of_to z1), <- (DecimalZ.of_to z2), H1. reflexivity.
Qed.

(** A decimal has digits and a sign only: no comma. *)
Lemma uint_no_comma (d : Decimal.uint) :
  Forall (fun b => b <> x2c) (bytes (NilEmpty.string_of_uint d)).
Proof.
  induction d; simpl; constructor; try discriminate; assumption.
Qed.

Lemma json_int_no_comma (z : Z) : Forall (fun b => b <> x2c) (json_int z).
Proof.
  unfold json_int, NilZero.string_of_int, NilZero.string_of_uint.
  destruct (Z.to_int z) as [d|d]; destruct d;
    repeat (simpl; constructor; try discriminate);
    apply uint_no_comma.
Qed.

(** Two lists cut at the first occurrence of [c] are cut alike. *)
Lemma cut_at_first (c : byte) (l1 l2 r1 r2 : list byte) :
  Forall (fun b => b <> c) l1 -> Forall (fun b => b <> c) l2 ->
  l1 ++ c :: r1 = l2 ++ c :: r2 -> l1 = l2 /\ r1 = r2.
Proof.
  revert l2. induction l1 as [|b1 l1 IH]; intros l2 H1 H2 Heq.
  - destruct l2 as [|b2 l2]; simpl in Heq.
    + injection Heq as <-. split; reflexivity.
    + injection Heq as <- _. apply Forall_inv in H2. contradiction.
  - destruct l2 as [|b2 l2]; simpl in Heq.
    + injection Heq as -> _. apply Forall_inv in H1. contradiction.
    + injection Heq as <- Heq.
      destruct (IH l2 (Forall_inv_tail H1) (Forall_inv_tail H2) Heq)
        as [-> ->].
      split; reflexivity.
Qed.

Section Serialization.
Context `{Library Metadata}.

(** A serialization begins with the id member, then the postings member. *)
Lemma json_Marshal_head (m : memory) (t : Transaction Metadata)
    (j : list byte) :
  json_Marshal m (Some t) = Some j ->
  exists rest : list byte,
    j = x7b :: x22 :: bytes "txid" ++ x22 :: x3a :: json_int (t_ID t) ++
        x2c :: x22 :: bytes "postings" ++ x22 :: x3a ::
        json_Postings m (t_Postings t) ++ x2c :: rest.
Proof.
  intros Hj. simpl in Hj.
  destruct (json_Metadata (t_Metadata t)) as [meta|]; [|discriminate].
  injection Hj as <-. eexists.
  unfold json_object, Transaction_fields, json_member.
  cbn [map fst snd join].
  repeat (first [rewrite <- app_assoc | progress cbn [app]]).
  reflexivity.
Qed.

(** X16.  Two transactions with the same serialization have the same id. *)
Theorem Marshal_tells_id (m m' : memory) (t t' : Transaction Metadata)
    (j : list byte) :
  json_Marshal m (Some t) = Some j ->
  json_Marshal m' (Some t') = Some j ->
  t_ID t = t_ID t'.
Proof.
  intros Hj Hj'.
  destruct (json_Marshal_head m t j Hj) as [rest Heq].
  destruct (json_Marshal_head m' t' j Hj') as [rest' Heq'].
  rewrite Heq in Heq'. cbn [bytes list_byte_of_string app] in Heq'.
  injection Heq' as Heq'.
  apply cut_at_first in Heq'; try apply json_int_no_comma.
  apply json_int_inj. apply Heq'.
Qed.

(** X17.  A transaction whose postings are the nil slice and one whose postings
    are any other slice, an empty one included, never have the same
    serialization: the first is written [null], the second as an array. *)
Theorem Marshal_tells_nil_postings (m m' : memory)
    (t t' : Transaction Metadata) (j j' : list byte) :
  data (t_Postings t) = None ->
  data (t_Postings t') <> None ->
  json_Marshal m (Some t) = Some j ->
  json_Marshal m' (Some t') = Some j' ->
  j <> j'.
Proof.
  intros Hnil Hsome Hj Hj' Hsame. subst j'.
  destruct (json_Marshal_head m t j Hj) as [rest Heq].
  destruct (json_Marshal_head m' t' j Hj') as [rest' Heq'].
  rewrite Heq in Heq'. cbn [bytes list_byte_of_string app] in Heq'.
  injection Heq' as Heq'.
  apply cut_at_first in Heq'; try apply json_int_no_comma.
  destruct Heq' as [_ Heq']. injection Heq' as Heq'.
  unfold json_Postings in Heq'. rewrite Hnil in Heq'.
  destruct (data (t_Postings t')); [discriminate Heq' | contradiction].
Qed.
End Serialization.

Lemma AppendPosting_each_then_Reverse_witness :
  well_formed [] (t_Postings sentinel) /\
  len (t_Postings sentinel) = 0%nat /\
  (length (take 2 mem3) = 1%nat \/
   length (take 2 mem3) = (2 * (length (take 2 mem3) / 2))%nat) /\
  exists (t' : Transaction NilMetadata) (m1 : memory)
         (r : Transaction NilMetadata) (m2 : memory),
    AppendPosting_each sentinel (take 2 mem3) [] = Some (t', m1) /\
    Transaction_Reverse t' m1 = Some (r, m2) /\
    elems m2 (t_Postings r) = rev (map swap (take 2 mem3)).
Proof.
  split; [cbv; lia|]. split; [reflexivity|]. split; [right; reflexivity|].
  apply (AppendPosting_each_then_Reverse (take 2 mem3) sentinel []);
    [cbv; lia | reflexivity | right; reflexivity].
Defined.

(** The transaction of [TestRevertTransaction] held in another cell of
    another memory. *)
Lemma Marshal_tells_id_witness :
  json_Marshal mem1 (Some tx1) = Some (Marshal_bytes mem1 (Some tx1)) /\
  json_Marshal (zero_Posting :: mem1)
    (Some (mkTransaction 0 (mkPostings (Some 1%nat) 1 4) "foo" EmptyString
             EmptyString nilmap)) =
    Some (Marshal_bytes mem1 (Some tx1)) /\
  t_ID tx1 =
    t_ID (mkTransaction 0 (mkPostings (Some 1%nat) 1 4) "foo" EmptyString
            EmptyString nilmap).
Proof.
  split; [reflexivity|]. split; [reflexivity|].
  apply (Marshal_tells_id mem1 (zero_Posting :: mem1) tx1
           (mkTransaction 0 (mkPostings (Some 1%nat) 1 4) "foo" EmptyString
              EmptyString nilmap) (Marshal_bytes mem1 (Some tx1)));
    reflexivity.
Defined.

Lemma Marshal_tells_nil_postings_witness :
  data (t_Postings sentinel) = None /\
  data (t_Postings tx_empty) <> None /\
  json_Marshal [] (Some sentinel) = Some (Marshal_bytes [] (Some sentinel)) /\
  json_Marshal [] (Some tx_empty) = Some (Marshal_bytes [] (Some tx_empty)) /\
  Marshal_bytes [] (Some sentinel) <> Marshal_bytes [] (Some tx_empty).
Proof.
  split; [reflexivity|]. split; [discriminate|].
  split; [reflexivity|]. split; [reflexivity|].
  apply (Marshal_tells_nil_postings [] [] sentinel tx_empty);
    reflexivity || discriminate.
Defined.
